(** * graphql-loader: import expansion and fragment transforms

    A shallow embedding of [src/loader.ts] and [src/transforms.ts] of the
    webpack GraphQL loader, and the properties of the import expander, the
    fragment deduplicator and the unused-fragment pruner. *)

From Stdlib Require Import Ascii String.
From stdpp Require Import gmap list strings.
From Equations Require Import Equations.

(** ** Strings

    A JavaScript string is a sequence of UTF-16 code units. *)

Abbreviation jsstr := (list N).

Definition js (s : string) : jsstr :=
  (λ a, N_of_ascii a) <$> list_ascii_of_string s.

(** ** The document tree ([graphql/language/ast]) *)

Module Ast.

Record Location := { loc_start : N; loc_end : N }.

Inductive SelectionNode :=
| Field (name : jsstr) (selectionSet : option SelectionSetNode)
| FragmentSpread (name : jsstr)
| InlineFragment (typeCondition : option jsstr) (selectionSet : SelectionSetNode)
with SelectionSetNode :=
| SelectionSet (selections : list SelectionNode).

(** The definition kinds that are neither operations nor fragments. *)
Inductive TypeSystemKind :=
| SchemaDefinition | ScalarTypeDefinition | ObjectTypeDefinition
| InterfaceTypeDefinition | UnionTypeDefinition | EnumTypeDefinition
| InputObjectTypeDefinition | DirectiveDefinition
| SchemaExtension | ScalarTypeExtension | ObjectTypeExtension
| InterfaceTypeExtension | UnionTypeExtension | EnumTypeExtension
| InputObjectTypeExtension.

Inductive DefinitionNode :=
| OperationDefinition (name : option jsstr) (selectionSet : SelectionSetNode)
| FragmentDefinition (name : jsstr) (typeCondition : jsstr)
    (selectionSet : SelectionSetNode)
| TypeSystemDefinition (kind : TypeSystemKind) (name : option jsstr).

Record DocumentNode := {
  loc : option Location;
  definitions : list DefinitionNode
}.

End Ast.
Export Ast.

(** [def.kind === "FragmentDefinition"], with [def.name.value]. *)
Definition fragmentName (def : DefinitionNode) : option jsstr :=
  match def with
  | FragmentDefinition name _ _ => Some name
  | _ => None
  end.

Definition isOperation (def : DefinitionNode) : bool :=
  match def with
  | OperationDefinition _ _ => true
  | _ => false
  end.

(** ** [removeDuplicateFragments]

    The callback of [definitions.filter] closes over the mutable set
    [usedName]; the set is threaded through the scan. *)

Fixpoint filterDuplicates (usedName : gset jsstr) (defs : list DefinitionNode)
  : list DefinitionNode :=
  match defs with
  | [] => []
  | def :: rest =>
      match def with
      | FragmentDefinition name _ _ =>
          if decide (name ∈ usedName)
          then filterDuplicates usedName rest
          else def :: filterDuplicates ({[ name ]} ∪ usedName) rest
      | _ => def :: filterDuplicates usedName rest
      end
  end.

Definition removeDuplicateFragments (document : DocumentNode) : DocumentNode :=
  {| loc := loc document;
     definitions := filterDuplicates ∅ (definitions document) |}.

(** ** [removeUnusedFragments] *)

(** [traverse]: every [FragmentSpread] name met in a selection set is added
    to [usedFragments]; any other selection with a selection set is
    descended into. *)
Fixpoint traverse (selectionSet : SelectionSetNode) (usedFragments : gset jsstr)
  {struct selectionSet} : gset jsstr :=
  match selectionSet with
  | SelectionSet selections =>
      (fix each (sels : list SelectionNode) (used : gset jsstr) : gset jsstr :=
         match sels with
         | [] => used
         | selection :: rest =>
             each rest
               match selection with
               | FragmentSpread name => {[ name ]} ∪ used
               | Field _ (Some inner) => traverse inner used
               | Field _ None => used
               | InlineFragment _ inner => traverse inner used
               end
         end) selections usedFragments
  end.

Definition visitDefinition (used : gset jsstr) (def : DefinitionNode)
  : gset jsstr :=
  match def with
  | OperationDefinition _ selectionSet => traverse selectionSet used
  | FragmentDefinition _ _ selectionSet => traverse selectionSet used
  | TypeSystemDefinition _ _ => used
  end.

Definition findFragmentSpreads (doc : DocumentNode) (usedFragments : gset jsstr)
  : gset jsstr :=
  foldl visitDefinition usedFragments (definitions doc).

(** [def.kind !== "FragmentDefinition" || usedFragments.has(def.name.value)] *)
Definition retained (usedFragments : gset jsstr) (def : DefinitionNode) : Prop :=
  match def with
  | FragmentDefinition name _ _ => name ∈ usedFragments
  | _ => True
  end.

#[global] Instance retained_dec used def : Decision (retained used def).
Proof. destruct def; simpl; apply _. Defined.

(** One pass: collect the spreads, filter the definitions. *)
Definition prunePass (document : DocumentNode) : DocumentNode :=
  let usedFragments := findFragmentSpreads document ∅ in
  {| loc := loc document;
     definitions := filter (retained usedFragments) (definitions document) |}.

Equations removeUnusedFragments (document : DocumentNode) : DocumentNode
  by wf (length (definitions document)) lt :=
  removeUnusedFragments document
    with decide (length (definitions document)
                 = length (definitions (prunePass document))) => {
    | left _ => prunePass document
    | right Hremoved => removeUnusedFragments (prunePass document) }.
Next Obligation.
  pose proof (length_filter (retained (findFragmentSpreads document ∅))
                (definitions document)).
  simpl in *. lia.
Qed.

(** The number of recursive invocations [removeUnusedFragments] makes of
    itself on [document]: the same recursion, counting the calls. *)
Equations recursionDepth (document : DocumentNode) : nat
  by wf (length (definitions document)) lt :=
  recursionDepth document
    with decide (length (definitions document)
                 = length (definitions (prunePass document))) => {
    | left _ => 0
    | right Hremoved => S (recursionDepth (prunePass document)) }.
Next Obligation.
  pose proof (length_filter (retained (findFragmentSpreads document ∅))
                (definitions document)).
  simpl in *. lia.
Qed.

(** ** Import expansion ([src/loader.ts]) *)

(** What a rejected promise carries. The source throws plain [Error]s and
    passes on the errors of its collaborators; they are told apart here by
    where they arise. *)
Inductive LoadError :=
| SyntaxError             (* [graphqlParse] throws *)
| ImportSyntaxError       (* "#import statement must specify a quoted file path" *)
| ImportResolutionError   (* [loader.resolve] calls back with an error *)
| ReadError               (* [loader.fs.readFile] calls back with an error *)
| SchemaLoadError.        (* [loadSchema] throws or rejects *)

(** The state in which an awaited promise ends up. *)
Inductive outcome (A : Type) :=
| Ok (value : A)
| Throw (error : LoadError)
| Pending.
Arguments Ok {A} value.
Arguments Throw {A} error.
Arguments Pending {A}.

(** [await]: go on with the value, or pass the rejection on. *)
#[global] Instance outcome_bind : MBind outcome := λ A B k m,
  match m with
  | Ok a => k a
  | Throw e => Throw e
  | Pending => Pending
  end.

(** *** Scanning for [#import] lines *)

Definition CR : N := 13.
Definition LF : N := 10.
Definition hash : N := 35.
Definition space : N := 32.
Definition dquote : N := 34.
Definition squote : N := 39.

(** [source.split(/(\r\n|\r|\n)/)]: the pieces between line breaks, with
    each line break kept as a piece of its own (the group captures it). *)
Fixpoint splitLines (source : jsstr) : list jsstr :=
  match source with
  | [] => [[]]
  | c :: rest =>
      if decide (c = CR) then
        match rest with
        | c' :: rest' =>
            if decide (c' = LF)
            then [] :: [CR; LF] :: splitLines rest'
            else [] :: [CR] :: splitLines rest
        | [] => [] :: [CR] :: splitLines rest
        end
      else if decide (c = LF) then [] :: [LF] :: splitLines rest
      else
        match splitLines rest with
        | piece :: pieces => (c :: piece) :: pieces
        | [] => [[c]]
        end
  end.

(** [s.split(" ")] *)
Fixpoint splitSpaces (s : jsstr) : list jsstr :=
  match s with
  | [] => [[]]
  | c :: rest =>
      if decide (c = space) then [] :: splitSpaces rest
      else
        match splitSpaces rest with
        | token :: tokens => (c :: token) :: tokens
        | [] => [[c]]
        end
  end.

Definition isQuote (c : N) : bool :=
  bool_decide (c = dquote) || bool_decide (c = squote).

(** The characters [.] does not match. *)
Definition isLineTerminator (c : N) : bool :=
  bool_decide (c = LF) || bool_decide (c = CR)
  || bool_decide (c = 8232%N) || bool_decide (c = 8233%N).

(** A greedy [.*] and then a quote, at the start of [s]: the longest run of
    characters other than line terminators that a quote follows. *)
Fixpoint greedyUntilQuote (s : jsstr) : option jsstr :=
  match s with
  | [] => None
  | c :: rest =>
      if isLineTerminator c then None
      else
        match greedyUntilQuote rest with
        | Some body => Some (c :: body)
        | None => if isQuote c then Some [] else None
        end
  end.

(** [token.match] on the pattern of the source (at the start a quote, a
    greedy [(.+)], a quote; either quote is single or double): the first
    capture group, when the pattern matches. *)
Definition filePathMatch (token : jsstr) : option jsstr :=
  match token with
  | q :: c :: rest =>
      if isQuote q && negb (isLineTerminator c)
      then (λ body, c :: body) <$> greedyUntilQuote rest
      else None
  | _ => None
  end.

Arguments filePathMatch : simpl never.

(** The body of the [lines.forEach] callback: [Ok None] when the line is
    passed over, [Ok (Some filePath)] when it asks for an import. A second
    token that is missing or empty is falsy, and the callback throws. *)
Definition importOfLine (line : jsstr) : outcome (option jsstr) :=
  match line with
  | [] => Ok None
  | c :: afterHash =>
      if decide (c = hash) then
        let comment := splitSpaces afterHash in
        if decide (comment !! 0 = Some (js "import")) then
          match comment !! 1 with
          | None | Some [] => Throw ImportSyntaxError
          | Some token =>
              match filePathMatch token with
              | Some filePath => Ok (Some filePath)
              | None => Throw ImportSyntaxError
              end
          end
        else Ok None
      else Ok None
  end.

Fixpoint importsOfLines (lines : list jsstr) : outcome (list jsstr) :=
  match lines with
  | [] => Ok []
  | line :: rest =>
      request ← importOfLine line ;
      requests ← importsOfLines rest ;
      Ok (match request with
          | Some filePath => filePath :: requests
          | None => requests
          end)
  end.

Definition scanImports (source : jsstr) : outcome (list jsstr) :=
  importsOfLines (splitLines source).

(** *** [Promise.all] *)

(** The promises of one [Promise.all] settle in an order the code does not
    control: [order] lists their indices as they settle. The first one to
    reject rejects the whole; otherwise the values are joined by position. *)
Definition rejection {A} (ps : list (outcome A)) (i : nat) : option LoadError :=
  match ps !! i with
  | Some (Throw e) => Some e
  | _ => None
  end.

Fixpoint firstRejection {A} (ps : list (outcome A)) (order : list nat)
  : option LoadError :=
  match order with
  | [] => None
  | i :: later =>
      match rejection ps i with
      | Some e => Some e
      | None => firstRejection ps later
      end
  end.

Fixpoint fulfilled {A} (ps : list (outcome A)) : option (list A) :=
  match ps with
  | [] => Some []
  | Ok a :: rest => (λ vs, a :: vs) <$> fulfilled rest
  | _ :: _ => None
  end.

(** Every promise that rejects is seen to reject at some time: indices that
    [order] leaves out settle after the listed ones, by position. *)
Definition promiseAll {A} (order : list nat) (ps : list (outcome A))
  : outcome (list A) :=
  match firstRejection ps (order ++ seq 0 (length ps)) with
  | Some e => Throw e
  | None =>
      match fulfilled ps with
      | Some values => Ok values
      | None => Pending
      end
  end.

(** The settling orders of the three [Promise.all]s of one [extractImports]
    call, and the schedules of the [loadSource] calls it starts. *)
Inductive Schedule :=
| Settle (resolved read loaded : list nat) (imported : list Schedule).

Section Expansion.

(** The collaborators: the parser ([None]: it throws), the resolver of the
    bundler, its file system, and [path.dirname]. *)
Variable graphqlParse : jsstr → option DocumentNode.
Variable resolve : jsstr → jsstr → option jsstr.
Variable readFile : jsstr → option jsstr.
Variable dirname : jsstr → jsstr.

Definition resolveImport (resolveContext filePath : jsstr) : outcome jsstr :=
  match resolve resolveContext filePath with
  | Some result => Ok result
  | None => Throw ImportResolutionError
  end.

Definition readContent (filePath : jsstr) : outcome (jsstr * jsstr) :=
  match readFile filePath with
  | Some content => Ok (dirname filePath, content)
  | None => Throw ReadError
  end.

(** [nodes.reduce((defs, node) => { defs.push(...node.definitions); ... }, [])] *)
Definition collectDefinitions (nodes : list DocumentNode)
  : list DefinitionNode :=
  foldl (λ defs node, defs ++ definitions node) [] nodes.

(** [extractImports], given the [loadSource] calls it makes on the
    contents it has read. *)
Definition extractImports
    (loadSources : list (jsstr * jsstr) → list (outcome DocumentNode))
    (resolved read loaded : list nat)
    (resolveContext source : jsstr) (document : DocumentNode)
  : outcome DocumentNode :=
  imports ← scanImports source ;
  files ← promiseAll resolved (resolveImport resolveContext <$> imports) ;
  contents ← promiseAll read (readContent <$> files) ;
  nodes ← promiseAll loaded (loadSources contents) ;
  Ok {| loc := loc document;
        definitions := definitions document ++ collectDefinitions nodes |}.

(** [contents.map(([fileContext, content]) => loadSource(...))]: one call
    per import; a call the schedule says nothing about does not settle. *)
Definition loadEach
    (load : Schedule → jsstr → jsstr → outcome DocumentNode)
  : list Schedule → list (jsstr * jsstr) → list (outcome DocumentNode) :=
  fix each (schedules : list Schedule) (contents : list (jsstr * jsstr))
      {struct schedules} : list (outcome DocumentNode) :=
    match schedules with
    | [] => (λ _, Pending) <$> contents
    | s :: schedules' =>
        match contents with
        | [] => []
        | (fileContext, content) :: contents' =>
            load s fileContext content :: each schedules' contents'
        end
    end.

Fixpoint loadSource (schedule : Schedule) (resolveContext source : jsstr)
  {struct schedule} : outcome DocumentNode :=
  match schedule with
  | Settle resolved read loaded imported =>
      match graphqlParse source with
      | None => Throw SyntaxError
      | Some document =>
          extractImports (loadEach loadSource imported)
            resolved read loaded resolveContext source document
      end
  end.

(** *** The merged definitions, as the specification words them

    The root document's own definitions, then for each import, in the
    order of the import lines, the whole block of definitions of that
    import expanded in the same way. [fuel] bounds the import depth. *)
Fixpoint mergedDefinitions (fuel : nat) (resolveContext source : jsstr)
  : option (list DefinitionNode) :=
  match fuel with
  | 0 => None
  | S fuel' =>
      root ← graphqlParse source;
      imports ← match scanImports source with
                | Ok imports => Some imports
                | _ => None
                end;
      blocks ← mapM (λ filePath,
                       file ← resolve resolveContext filePath;
                       content ← readFile file;
                       mergedDefinitions fuel' (dirname file) content)
                    imports;
      Some (definitions root ++ concat blocks)
  end.

(** *** The loader *)

Record GraphQLLoaderOptions := {
  o_schema : option jsstr;
  o_validate : bool;
  o_removeUnusedFragments : bool;
  o_minify : bool;
  o_emitDefaultExport : bool
}.

(** The rest of the bundler and of the GraphQL library. [schemaFrom]
    stands for the search of the schema file up the directory tree, its
    [stat] and read, the cache and [buildClientSchema]; the text
    transform of [minifyDocumentString] is left open. *)
Variable GraphQLSchema GraphQLError : Type.
Variable schemaFrom : jsstr → jsstr → outcome GraphQLSchema.
Variable graphqlValidate : GraphQLSchema → DocumentNode → list GraphQLError.
Variable graphqlPrint : DocumentNode → jsstr.
Variable JSON_stringify : jsstr → jsstr.
Variable minifyDocumentString : jsstr → jsstr.

Record LoaderContext := {
  context : jsstr;
  getOptions : GraphQLLoaderOptions;
  async : bool   (* whether [this.async()] hands out a callback *)
}.

Record LoadedOptions := {
  l_schema : option GraphQLSchema;
  l_removeUnusedFragments : bool;
  l_minify : bool;
  l_emitDefaultExport : bool
}.

Definition loadSchema (loader : LoaderContext)
    (options : GraphQLLoaderOptions) : outcome GraphQLSchema :=
  match o_schema options with
  | Some (c :: path) => schemaFrom (context loader) (c :: path)
  | _ => Throw SchemaLoadError
  end.

Definition loadOptions (loader : LoaderContext) : outcome LoadedOptions :=
  let options := getOptions loader in
  schema ← (if o_validate options
            then s ← loadSchema loader options; Ok (Some s)
            else Ok None);
  Ok {| l_schema := schema;
        l_removeUnusedFragments := o_removeUnusedFragments options;
        l_minify := o_minify options;
        l_emitDefaultExport := o_emitDefaultExport options |}.

(** What the bundler sees of one run. *)
Inductive Callback :=
| doneError (err : LoadError)
| doneOutput (output : jsstr).

Inductive LoaderRun :=
| Rejected                   (* no callback: the loader throws at once *)
| Unsettled                  (* an awaited promise never settles *)
| Finished (emitted : list GraphQLError) (done : Callback).

Definition loader (this : LoaderContext) (schedule : Schedule)
    (source : jsstr) : LoaderRun :=
  if async this then
    match options ← loadOptions this;
          document ← loadSource schedule (context this) source;
          Ok (options, document) with
    | Throw err => Finished [] (doneError err)
    | Pending => Unsettled
    | Ok (options, document) =>
        let document := removeDuplicateFragments document in
        let document :=
          if l_removeUnusedFragments options
          then removeUnusedFragments document else document in
        let validationErrors :=
          match l_schema options with
          | Some schema => graphqlValidate schema document
          | None => []
          end in
        let content := JSON_stringify (graphqlPrint document) in
        let output :=
          if l_minify options then minifyDocumentString content
          else content in
        let exp :=
          if l_emitDefaultExport options then js "export default "
          else js "module.exports = " in
        Finished validationErrors (doneOutput (exp ++ output))
    end
  else Rejected.

End Expansion.

(** * Definitions for the statements *)

(** The names a definition spreads. *)
Definition spreads (def : DefinitionNode) : gset jsstr :=
  visitDefinition ∅ def.

(** Induction over selection sets and the selections nested in them. *)
Section SelectionInduction.

Variable P : SelectionSetNode → Prop.
Variable Q : SelectionNode → Prop.
Hypothesis HSet : ∀ selections, Forall Q selections → P (SelectionSet selections).
Hypothesis HField : ∀ name inner, P inner → Q (Field name (Some inner)).
Hypothesis HLeaf : ∀ name, Q (Field name None).
Hypothesis HSpread : ∀ name, Q (FragmentSpread name).
Hypothesis HInline : ∀ cond inner, P inner → Q (InlineFragment cond inner).

Fixpoint selectionSet_induction (selectionSet : SelectionSetNode)
  : P selectionSet :=
  match selectionSet with
  | SelectionSet selections =>
      HSet selections
        ((fix all (sels : list SelectionNode) : Forall Q sels :=
            match sels with
            | [] => @List.Forall_nil _ Q
            | selection :: rest =>
                @List.Forall_cons _ Q selection rest
                  (selection_induction selection) (all rest)
            end) selections)
  end
with selection_induction (selection : SelectionNode) : Q selection :=
  match selection with
  | Field name (Some inner) => HField name inner (selectionSet_induction inner)
  | Field name None => HLeaf name
  | FragmentSpread name => HSpread name
  | InlineFragment cond inner =>
      HInline cond inner (selectionSet_induction inner)
  end.

End SelectionInduction.

(** What one step of the [forEach] of [traverse] adds. *)
Definition visitSelection (used : gset jsstr) (selection : SelectionNode)
  : gset jsstr :=
  match selection with
  | FragmentSpread name => {[ name ]} ∪ used
  | Field _ (Some inner) => traverse inner used
  | Field _ None => used
  | InlineFragment _ inner => traverse inner used
  end.

(** A name is reachable from an operation when an operation of the document
    spreads it, or a fragment definition of the document spreads it whose
    own name is reachable. *)
Inductive reachable (defs : list DefinitionNode) : jsstr → Prop :=
| reach_operation def name :
    def ∈ defs → isOperation def = true → name ∈ spreads def →
    reachable defs name
| reach_fragment def via name :
    def ∈ defs → fragmentName def = Some via → reachable defs via →
    name ∈ spreads def → reachable defs name.

(** The deduplicated list, as the specification words it: a definition is
    kept unless it is a fragment and a fragment of the same name stands
    somewhere before it in the document. *)
Definition firstOfItsName (earlier : list DefinitionNode) (def : DefinitionNode)
  : bool :=
  match fragmentName def with
  | Some name => bool_decide (name ∉ omap fragmentName earlier)
  | None => true
  end.

Fixpoint keepFirst (earlier rest : list DefinitionNode) : list DefinitionNode :=
  match rest with
  | [] => []
  | def :: rest' =>
      (if firstOfItsName earlier def then [def] else [])
        ++ keepFirst (earlier ++ [def]) rest'
  end.

(** Induction over schedules and the schedules nested in them. *)
Section ScheduleInduction.

Variable P : Schedule → Prop.
Hypothesis HSettle : ∀ resolved read loaded imported,
  Forall P imported → P (Settle resolved read loaded imported).

Fixpoint Schedule_induction (schedule : Schedule) : P schedule :=
  match schedule with
  | Settle resolved read loaded imported =>
      HSettle resolved read loaded imported
        ((fix all (ss : list Schedule) : Forall P ss :=
            match ss with
            | [] => @List.Forall_nil _ P
            | s :: rest =>
                @List.Forall_cons _ P s rest (Schedule_induction s) (all rest)
            end) imported)
  end.

End ScheduleInduction.

(** A schedule that says enough: down to [depth] levels of imports, every
    call has schedules for at least [width] nested loads. *)
Fixpoint roomy (width depth : nat) (schedule : Schedule) : Prop :=
  match depth with
  | 0 => True
  | S depth' =>
      match schedule with
      | Settle _ _ _ imported =>
          width ≤ length imported ∧ Forall (roomy width depth') imported
      end
  end.

(** What the pattern of the source asks of the token after [import]: a
    quote, one or more characters other than line terminators, and a quote
    again, of either kind; what follows in the token is not looked at. *)
Definition quotedPath (token : jsstr) : Prop :=
  ∃ q body q' rest,
    token = q :: body ++ q' :: rest
    ∧ isQuote q = true ∧ isQuote q' = true
    ∧ body ≠ [] ∧ Forall (λ c, isLineTerminator c = false) body.

(** A token enclosed in matching quote characters. *)
Definition enclosedInMatchingQuotes (token : jsstr) : Prop :=
  ∃ q body, isQuote q = true ∧ token = q :: body ++ [q].

(** The path a line asks to import, if it asks for one. *)
Definition requestedPath (line : jsstr) : option jsstr :=
  match importOfLine line with
  | Ok (Some filePath) => Some filePath
  | _ => None
  end.

(** A line the scan takes for an import statement: it starts with a hash
    and its first token after the hash, split at spaces, is [import]. *)
Definition isImportLine (line : jsstr) : Prop :=
  line !! 0 = Some hash ∧ splitSpaces (tail line) !! 0 = Some (js "import").

(** ** Fixtures

    The documents and files of the scenarios of the specification, and a
    small in-memory bundler for them. *)
Module Fixtures.

Definition leaf (name : string) : SelectionNode := Field (js name) None.
Definition spread (name : string) : SelectionNode := FragmentSpread (js name).
Definition fragment (name : string) (selections : list SelectionNode)
  : DefinitionNode :=
  FragmentDefinition (js name) (js "T") (SelectionSet selections).
Definition query (selections : list SelectionNode) : DefinitionNode :=
  OperationDefinition None (SelectionSet selections).
Definition document (defs : list DefinitionNode) : DocumentNode :=
  {| loc := None; definitions := defs |}.

(** Scenario A: [a] is used, [b] is not. *)
Definition fragA := fragment "a" [leaf "f"].
Definition fragB := fragment "b" [leaf "g"].
Definition scenarioA := document [query [spread "a"]; fragA; fragB].

(** A chain: the query spreads [a], which spreads [c]; [b] is unused and
    spreads [d], which nothing else spreads. *)
Definition chainA := fragment "a" [leaf "f"; Field (js "n") (Some (SelectionSet [spread "c"]))].
Definition chainB := fragment "b" [spread "d"].
Definition chainC := fragment "c" [leaf "h"].
Definition chainD := fragment "d" [leaf "k"].
Definition chain :=
  document [query [spread "a"; spread "missing"]; chainA; chainB; chainC; chainD].

(** Fragments no operation reaches: [x] and [y] spread one another, [s]
    spreads itself. *)
Definition cycX := fragment "x" [spread "y"].
Definition cycY := fragment "y" [InlineFragment None (SelectionSet [spread "x"])].
Definition cycS := fragment "s" [leaf "f"; spread "s"].
Definition cyclic := document [query [leaf "f"]; cycX; cycY; cycS].

(** The same fragment name defined three times. *)
Definition shared1 := fragment "shared" [leaf "one"].
Definition shared2 := fragment "shared" [leaf "two"].
Definition repeated :=
  document [shared1; query [spread "shared"]; shared2; fragB; shared1].

(** Import lines. *)
Definition importLine (opening : N) (path : string) (closing : N) : jsstr :=
  js "#import " ++ [opening] ++ js path ++ [closing].

Definition singleQuoted : jsstr := importLine squote "frag.graphql" squote.
(** Opened with a double quote and closed with a single one. *)
Definition mismatched : jsstr := importLine dquote "foo.graphql" squote.

(** Files: the root imports [a] and [b]; [a] imports [c]. *)
Definition rootSource : jsstr :=
  importLine dquote "./a.graphql" dquote ++ [CR; LF]
  ++ importLine squote "./b.graphql" squote ++ [LF]
  ++ js "query { ...a ...b }".
Definition aSource : jsstr :=
  importLine dquote "./c.graphql" dquote ++ [LF]
  ++ js "fragment a on T { ...c }" ++ [LF] ++ js "query Extra { extra }".
Definition bSource : jsstr := js "fragment b on T { g }".
Definition cSource : jsstr := js "fragment c on T { h }".
Definition unquotedSource : jsstr :=
  js "#import foo.graphql" ++ [LF] ++ js "query { f }".

Definition rootQuery := query [spread "a"; spread "b"].
Definition importedA := fragment "a" [spread "c"].
Definition importedQuery :=
  OperationDefinition (Some (js "Extra")) (SelectionSet [leaf "extra"]).

Definition parse (source : jsstr) : option DocumentNode :=
  if decide (source = rootSource) then Some (document [rootQuery])
  else if decide (source = aSource)
  then Some (document [importedA; importedQuery])
  else if decide (source = bSource) then Some (document [fragB])
  else if decide (source = cSource) then Some (document [chainC])
  else if decide (source = unquotedSource) then Some (document [query [leaf "f"]])
  else None.

Definition resolveIn (resolveContext request : jsstr) : option jsstr :=
  if decide (request = js "./a.graphql") then Some (js "/src/a.graphql")
  else if decide (request = js "./b.graphql") then Some (js "/src/b.graphql")
  else if decide (request = js "./c.graphql") then Some (js "/src/c.graphql")
  else None.

Definition read (filePath : jsstr) : option jsstr :=
  if decide (filePath = js "/src/a.graphql") then Some aSource
  else if decide (filePath = js "/src/b.graphql") then Some bSource
  else if decide (filePath = js "/src/c.graphql") then Some cSource
  else None.

Definition dir (filePath : jsstr) : jsstr := js "/src".

Definition idle : Schedule := Settle [] [] [] [].
(** The second import settles first at each join. *)
Definition secondFirst : Schedule :=
  Settle [1; 0] [1; 0] [1; 0] [Settle [0] [0] [0] [idle]; idle].
Definition inOrder : Schedule :=
  Settle [0; 1] [0; 1] [0; 1] [Settle [0] [0] [0] [idle]; idle].

Definition expanded : DocumentNode :=
  document [rootQuery; importedA; importedQuery; chainC; fragB].

(** A loader run with validation on. *)
Definition validating : GraphQLLoaderOptions :=
  {| o_schema := Some (js "schema.json"); o_validate := true;
     o_removeUnusedFragments := true; o_minify := false;
     o_emitDefaultExport := true |}.
Definition this : LoaderContext :=
  {| context := js "/src"; getOptions := validating; async := true |}.
Definition schemaOf (resolveContext schemaPath : jsstr) : outcome unit := Ok ().
Definition validate (schema : unit) (doc : DocumentNode) : list string :=
  ["Cannot query field f"; "Unknown type T"]%string.
Definition print (doc : DocumentNode) : jsstr := js "query { ...a ...b }".
Definition stringify (text : jsstr) : jsstr := [dquote] ++ text ++ [dquote].
Definition minify (text : jsstr) : jsstr := text.

End Fixtures.

(** ** Definitions for the further properties *)

(** The fragment names a list of definitions defines, in order. *)
Definition fragmentNames (defs : list DefinitionNode) : list jsstr :=
  omap fragmentName defs.

(** A fragment spread of [name] occurs in a selection set, at any depth. *)
Inductive spreadInSet (name : jsstr) : SelectionSetNode → Prop :=
| spread_in_set selections selection :
    selection ∈ selections → spreadInSelection name selection →
    spreadInSet name (SelectionSet selections)
with spreadInSelection (name : jsstr) : SelectionNode → Prop :=
| spread_here : spreadInSelection name (FragmentSpread name)
| spread_in_field field inner :
    spreadInSet name inner → spreadInSelection name (Field field (Some inner))
| spread_in_inline cond inner :
    spreadInSet name inner → spreadInSelection name (InlineFragment cond inner).

(** A collection of definitions of a document in which every fragment is
    spread by a member of the collection. *)
Definition selfSupported (defs kept : list DefinitionNode) : Prop :=
  ∀ f, f ∈ kept →
    f ∈ defs
    ∧ ∀ name, fragmentName f = Some name →
        ∃ g, g ∈ kept ∧ name ∈ spreads g.

(** No quote can end a longer capture: every quote of [rest] stands behind
    a line terminator. *)
Definition noQuoteAhead (rest : jsstr) : Prop :=
  ¬ ∃ more q tail,
      rest = more ++ q :: tail
      ∧ isQuote q = true ∧ Forall (λ c, isLineTerminator c = false) more.

(** The three line breaks the scan splits at. *)
Definition isLineBreak (piece : jsstr) : Prop :=
  piece = [CR; LF] ∨ piece = [CR] ∨ piece = [LF].

(** [(resolveContext', source')] is imported by [(resolveContext, source)]:
    a line of [source] asks for a path that resolves, from
    [resolveContext], to a file with the text [source'] in the directory
    [resolveContext']. *)
Definition importedBy (resolve : jsstr → jsstr → option jsstr)
    (readFile : jsstr → option jsstr) (dirname : jsstr → jsstr)
    (imported importing : jsstr * jsstr) : Prop :=
  ∃ imports filePath file,
    scanImports importing.2 = Ok imports
    ∧ filePath ∈ imports
    ∧ resolve importing.1 filePath = Some file
    ∧ readFile file = Some imported.2
    ∧ dirname file = imported.1.

(** ** The schema and its cache ([findFileInTree], [loadSchema])

    What [schemaFrom] stands for above, with the process-wide
    [cachedSchemas] threaded through as a finite map from schema paths. *)
Module Schema.

(** What the code reads of a [Stats]: [isFile()] and [mtime.getTime()]. *)
Record Stats := { isFile : bool; mtime : Z }.

Record CachedSchema (GraphQLSchema : Type) := {
  c_mtime : Z;
  c_schema : GraphQLSchema
}.
Arguments c_mtime {GraphQLSchema} _.
Arguments c_schema {GraphQLSchema} _.

Section Schema.

(** The file system of the bundler ([None]: the call reports an error),
    [path.join] and [path.dirname], and [buildClientSchema] applied to the
    parsed JSON text ([None]: one of the two throws). *)
Variable GraphQLSchema : Type.
Variable stat : jsstr → option Stats.
Variable readFile : jsstr → option jsstr.
Variable join : jsstr → jsstr → jsstr.
Variable dirname : jsstr → jsstr.
Variable buildClientSchema : jsstr → option GraphQLSchema.

(** [(await stat(loader, fileName)).isFile()], an error caught as false. *)
Definition isFileAt (fileName : jsstr) : bool :=
  match stat fileName with
  | Some stats => isFile stats
  | None => false
  end.

(** The [while (true)] loop, [fuel] bounding its rounds: [Pending] when the
    rounds run out before a file or the root is found. *)
Fixpoint findFileInTree (fuel : nat) (currentContext schemaPath : jsstr)
  : outcome jsstr :=
  match fuel with
  | 0 => Pending
  | S fuel' =>
      let fileName := join currentContext schemaPath in
      if isFileAt fileName then Ok fileName
      else
        let parent := dirname currentContext in
        if decide (parent = currentContext) then Throw SchemaLoadError
        else findFileInTree fuel' parent schemaPath
  end.

(** What one call leaves behind: its result, the cache, and the
    dependencies it has added. *)
Record Loaded := {
  result : outcome GraphQLSchema;
  cache : gmap jsstr (CachedSchema GraphQLSchema);
  dependencies : list jsstr
}.

Definition loadSchema (fuel : nat) (loader : LoaderContext)
    (options : GraphQLLoaderOptions)
    (cachedSchemas : gmap jsstr (CachedSchema GraphQLSchema)) : Loaded :=
  match o_schema options with
  | Some (c :: path) =>
      match findFileInTree fuel (context loader) (c :: path) with
      | Ok schemaPath =>
          let failed :=
            {| result := Throw SchemaLoadError; cache := cachedSchemas;
               dependencies := [schemaPath] |} in
          match stat schemaPath with
          | None => failed
          | Some stats =>
              let lastChangedAt := mtime stats in
              match readFile schemaPath with
              | None => failed
              | Some schemaString =>
                  let rebuilt :=
                    match buildClientSchema schemaString with
                    | None => failed
                    | Some schema =>
                        {| result := Ok schema;
                           cache :=
                             <[schemaPath :=
                                 {| c_mtime := lastChangedAt;
                                    c_schema := schema |}]> cachedSchemas;
                           dependencies := [schemaPath] |}
                    end in
                  match cachedSchemas !! schemaPath with
                  | Some cached =>
                      if decide (lastChangedAt ≤ c_mtime cached)%Z
                      then {| result := Ok (c_schema cached);
                              cache := cachedSchemas;
                              dependencies := [schemaPath] |}
                      else rebuilt
                  | None => rebuilt
                  end
              end
          end
      | Throw err =>
          {| result := Throw err; cache := cachedSchemas; dependencies := [] |}
      | Pending =>
          {| result := Pending; cache := cachedSchemas; dependencies := [] |}
      end
  | _ =>
      {| result := Throw SchemaLoadError; cache := cachedSchemas;
         dependencies := [] |}
  end.

(** The places [findFileInTree] looks at, from the context up through [k]
    parents. *)
Definition candidates (k : nat) (context schemaPath : jsstr) : list jsstr :=
  (λ j, join (Nat.iter j dirname context) schemaPath) <$> seq 0 (S k).

End Schema.

End Schema.

(** ** [minifyDocumentString]

    Four [String.prototype.replace] calls with global patterns, one after
    the other. *)

(** What [\s] matches: the white space and the line terminators of
    ECMAScript, as UTF-16 code units. *)
Definition isWhiteSpace (c : N) : bool :=
  bool_decide (c ∈ [9; 10; 11; 12; 13; 32; 160; 5760; 8232; 8233; 8239;
                    8287; 12288; 65279]%N)
  || ((8192 <=? c)%N && (c <=? 8202)%N).

(** The punctuators of the last pattern: braces, parentheses, full stop,
    colon and comma. *)
Definition isPunctuator (c : N) : bool :=
  bool_decide (c ∈ [123; 125; 40; 41; 46; 58; 44]%N).

Definition backslash : N := 92.
Definition letterN : N := 110.

(** The rest of [s] behind its longest prefix of characters in [p]: what a
    greedy starred class leaves. *)
Fixpoint skipWhile (p : N → bool) (s : jsstr) : jsstr :=
  match s with
  | c :: rest => if p c then skipWhile p rest else s
  | [] => []
  end.

(** [s.replace(pattern, replacement)] for a global pattern. [matchAt] says
    whether the pattern matches at the start of a text, and then gives the
    replacement text and the text behind the match; the text is walked
    from the left, a character at which there is no match is kept. None of
    the four patterns matches the empty string; a match that uses up no
    character is passed over like no match. *)
Equations replaceAll (matchAt : jsstr → option (jsstr * jsstr)) (s : jsstr)
  : jsstr by wf (length s) lt :=
  replaceAll matchAt [] := [];
  replaceAll matchAt (c :: rest) with matchAt (c :: rest) => {
    | Some (replacement, after)
        with decide (length after < length (c :: rest)) => {
        | left _ => replacement ++ replaceAll matchAt after
        | right _ => c :: replaceAll matchAt rest };
    | None => c :: replaceAll matchAt rest }.

(** The first pattern, a hash and all that follows on its line, replaced by
    nothing. *)
Definition commentAt (s : jsstr) : option (jsstr * jsstr) :=
  match s with
  | c :: rest =>
      if decide (c = hash)
      then Some ([], skipWhile (λ c, negb (isLineTerminator c)) rest)
      else None
  | [] => None
  end.

(** The second pattern, a backslash and the letter n, replaced by a
    space. *)
Definition escapedNewlineAt (s : jsstr) : option (jsstr * jsstr) :=
  match s with
  | c :: n :: rest =>
      if decide (c = backslash ∧ n = letterN) then Some ([space], rest)
      else None
  | _ => None
  end.

(** The third pattern, two or more white space characters, replaced by one
    space. *)
Definition whitespaceRunAt (s : jsstr) : option (jsstr * jsstr) :=
  match s with
  | c :: c' :: rest =>
      if isWhiteSpace c && isWhiteSpace c'
      then Some ([space], skipWhile isWhiteSpace rest)
      else None
  | _ => None
  end.

(** The fourth pattern, a punctuator with the white space before and
    behind it, replaced by the punctuator. *)
Definition punctuatorAt (s : jsstr) : option (jsstr * jsstr) :=
  match skipWhile isWhiteSpace s with
  | p :: rest =>
      if isPunctuator p then Some ([p], skipWhile isWhiteSpace rest)
      else None
  | [] => None
  end.

Definition minifyDocumentString (documentString : jsstr) : jsstr :=
  replaceAll punctuatorAt
    (replaceAll whitespaceRunAt
       (replaceAll escapedNewlineAt
          (replaceAll commentAt documentString))).

(** No two neighbours of [text] are both in [p], or one in [p] and the
    other in [q]. *)
Definition apart (p q : N → bool) (text : jsstr) : Prop :=
  ∀ i a b, text !! i = Some a → text !! S i = Some b →
    ¬ (p a = true ∧ q b = true) ∧ ¬ (q a = true ∧ p b = true).

(** What the four patterns have in common: the text behind a match is a
    proper end piece of the text, and the replacement is no longer than
    what the match covers. *)
Definition shrinking (matchAt : jsstr → option (jsstr * jsstr)) : Prop :=
  ∀ s replacement after,
    matchAt s = Some (replacement, after) →
    after `suffix_of` s ∧ length replacement + length after ≤ length s
    ∧ length after < length s.

(** ** More fixtures: failing imports, a schema in a parent directory *)
Module Cases.

Definition missingSource : jsstr :=
  Fixtures.importLine dquote "./missing.graphql" dquote ++ [LF]
  ++ js "query { f }".
Definition goneSource : jsstr :=
  Fixtures.importLine dquote "./gone.graphql" dquote ++ [LF]
  ++ js "query { f }".
Definition brokenSource : jsstr := js "fragment {".
Definition brokenImporter : jsstr :=
  Fixtures.importLine dquote "./b.graphql" dquote ++ [LF]
  ++ Fixtures.importLine dquote "./broken.graphql" dquote ++ [LF]
  ++ js "query { ...b }".

Definition plainQuery : DocumentNode :=
  Fixtures.document [Fixtures.query [Fixtures.leaf "f"]].

Definition parse (source : jsstr) : option DocumentNode :=
  if decide (source = missingSource) then Some plainQuery
  else if decide (source = goneSource) then Some plainQuery
  else if decide (source = brokenImporter)
  then Some (Fixtures.document [Fixtures.query [Fixtures.spread "b"]])
  else Fixtures.parse source.

Definition resolveIn (resolveContext request : jsstr) : option jsstr :=
  if decide (request = js "./gone.graphql") then Some (js "/src/gone.graphql")
  else if decide (request = js "./broken.graphql")
  then Some (js "/src/broken.graphql")
  else Fixtures.resolveIn resolveContext request.

Definition read (filePath : jsstr) : option jsstr :=
  if decide (filePath = js "/src/broken.graphql") then Some brokenSource
  else Fixtures.read filePath.

(** A loader with [validate] on and no schema, and one with [validate]
    off and a schema. *)
Definition noSchema : LoaderContext :=
  {| context := js "/src";
     getOptions :=
       {| o_schema := None; o_validate := true;
          o_removeUnusedFragments := false; o_minify := false;
          o_emitDefaultExport := false |};
     async := true |}.
Definition notValidating : LoaderContext :=
  {| context := js "/src";
     getOptions :=
       {| o_schema := Some (js "schema.json"); o_validate := false;
          o_removeUnusedFragments := true; o_minify := true;
          o_emitDefaultExport := false |};
     async := true |}.
Definition failingSchema (resolveContext schemaPath : jsstr) : outcome unit :=
  Throw SchemaLoadError.
Definition silent (schema : unit) (doc : DocumentNode) : list string := [].

(** A file system with the schema one directory above the context. *)
Definition parentOf (directory : jsstr) : jsstr :=
  if decide (directory = js "/src/app") then js "/src" else js "/".
Definition joined (directory name : jsstr) : jsstr :=
  directory ++ js "/" ++ name.
Definition statOf (fileName : jsstr) : option Schema.Stats :=
  if decide (fileName = js "/src/schema.json")
  then Some {| Schema.isFile := true; Schema.mtime := 1700 |}
  else if decide (fileName = js "/src/app")
  then Some {| Schema.isFile := false; Schema.mtime := 5 |}
  else None.
Definition readSchema (fileName : jsstr) : option jsstr :=
  if decide (fileName = js "/src/schema.json") then Some (js "{}") else None.
(** The schema built from a text is, here, the text. *)
Definition build (text : jsstr) : option jsstr := Some text.
Definition inApp : LoaderContext :=
  {| context := js "/src/app"; getOptions := Fixtures.validating;
     async := true |}.

End Cases.

(** * Properties *)

(** ** Fragment spreads *)

Lemma traverse_foldl selections used :
  traverse (SelectionSet selections) used = foldl visitSelection used selections.
Proof.
  simpl. revert used.
  induction selections as [|selection rest IH]; intros used; [done|].
  simpl. by rewrite IH.
Qed.

Lemma traverse_acc selectionSet :
  ∀ used, traverse selectionSet used = traverse selectionSet ∅ ∪ used.
Proof.
  induction selectionSet using selectionSet_induction
    with (Q := λ selection,
            ∀ used, visitSelection used selection
                    = visitSelection ∅ selection ∪ used).
  - intros used. rewrite !traverse_foldl. revert used.
    induction H as [|selection rest Hsel _ IH]; intros used; simpl.
    + clear. set_solver.
    + rewrite (IH (visitSelection used selection)),
        (IH (visitSelection ∅ selection)), (Hsel used).
      clear. set_solver.
  - done.
  - intros used. simpl. clear. set_solver.
  - intros used. simpl. clear. set_solver.
  - done.
Qed.

Lemma visitDefinition_acc used def :
  visitDefinition used def = spreads def ∪ used.
Proof.
  unfold spreads. destruct def; simpl; try apply traverse_acc. set_solver.
Qed.

Lemma elem_of_foldl_visit defs used name :
  name ∈ foldl visitDefinition used defs ↔
  name ∈ used ∨ ∃ def, def ∈ defs ∧ name ∈ spreads def.
Proof.
  revert used. induction defs as [|def defs IH]; intros used; simpl.
  - split; [auto|]. intros [?|(?&Hin&_)]; [done|]. by apply elem_of_nil in Hin.
  - rewrite IH, visitDefinition_acc, elem_of_union. split.
    + intros [[?|?]|(d&?&?)]; eauto.
      * right. exists def. split; [left|done].
      * right. exists d. split; [by right|done].
    + intros [?|(d&[->|?]%elem_of_cons&?)]; eauto.
Qed.

Lemma elem_of_findFragmentSpreads doc name :
  name ∈ findFragmentSpreads doc ∅ ↔
  ∃ def, def ∈ definitions doc ∧ name ∈ spreads def.
Proof.
  unfold findFragmentSpreads. rewrite elem_of_foldl_visit. set_solver.
Qed.

(** ** The pruning loop *)

Lemma filter_length_eq {A} (P : A → Prop) `{!∀ x, Decision (P x)} (l : list A) :
  length (filter P l) = length l → filter P l = l.
Proof.
  induction l as [|x l IH]; [done|].
  rewrite filter_cons. destruct (decide (P x)); simpl; intros Hlen.
  - f_equal. apply IH. lia.
  - pose proof (length_filter P l). lia.
Qed.

Lemma removeUnusedFragments_pass document :
  removeUnusedFragments document =
  if decide (length (definitions document)
             = length (definitions (prunePass document)))
  then prunePass document
  else removeUnusedFragments (prunePass document).
Proof.
  rewrite (removeUnusedFragments_equation_1 document).
  by destruct (decide (length (definitions document)
                       = length (definitions (prunePass document)))).
Qed.

Lemma recursionDepth_pass document :
  recursionDepth document =
  if decide (length (definitions document)
             = length (definitions (prunePass document)))
  then 0
  else S (recursionDepth (prunePass document)).
Proof.
  rewrite (recursionDepth_equation_1 document).
  by destruct (decide (length (definitions document)
                       = length (definitions (prunePass document)))).
Qed.

Lemma prunePass_length document :
  length (definitions (prunePass document)) ≤ length (definitions document).
Proof. apply length_filter. Qed.

Lemma prunePass_fixed document :
  length (definitions document) = length (definitions (prunePass document)) →
  prunePass document = document.
Proof.
  destruct document as [l defs]. unfold prunePass. simpl. intros Hlen.
  f_equal. by apply filter_length_eq.
Qed.

(** Induction along the passes of [removeUnusedFragments]. *)
Lemma prune_ind (P : DocumentNode → DocumentNode → Prop) :
  (∀ d, prunePass d = d → P d d) →
  (∀ d, length (definitions (prunePass d)) < length (definitions d) →
        P (prunePass d) (removeUnusedFragments (prunePass d)) →
        P d (removeUnusedFragments (prunePass d))) →
  ∀ d, P d (removeUnusedFragments d).
Proof.
  intros Hstop Hstep d.
  remember (length (definitions d)) as n eqn:Hn. revert d Hn.
  induction n as [n IH] using lt_wf_ind. intros d ->.
  rewrite removeUnusedFragments_pass. destruct (decide _) as [Heq|Hne].
  - rewrite (prunePass_fixed d Heq). apply Hstop. by apply prunePass_fixed.
  - pose proof (prunePass_length d).
    assert (length (definitions (prunePass d)) < length (definitions d)) by lia.
    apply Hstep; [done|]. by eapply IH.
Qed.

Lemma removeUnusedFragments_fixed document :
  prunePass document = document → removeUnusedFragments document = document.
Proof.
  intros Hfix. rewrite removeUnusedFragments_pass, Hfix.
  by destruct (decide _).
Qed.

Lemma prunePass_sublist document :
  definitions (prunePass document) `sublist_of` definitions document.
Proof. apply sublist_filter. Qed.

Lemma removeUnusedFragments_sublist document :
  definitions (removeUnusedFragments document) `sublist_of` definitions document.
Proof.
  apply (prune_ind (λ d r, definitions r `sublist_of` definitions d)).
  - done.
  - intros d _ IH. etrans; [exact IH|apply prunePass_sublist].
Qed.

Lemma filterDuplicates_sublist usedName defs :
  filterDuplicates usedName defs `sublist_of` defs.
Proof.
  revert usedName. induction defs as [|def defs IH]; intros usedName; [done|].
  destruct def; simpl; try (apply sublist_skip, IH).
  destruct (decide _); [apply sublist_cons|apply sublist_skip]; apply IH.
Qed.

Lemma findFragmentSpreads_mono doc doc' :
  definitions doc `sublist_of` definitions doc' →
  findFragmentSpreads doc ∅ ⊆ findFragmentSpreads doc' ∅.
Proof.
  intros Hsub name. rewrite !elem_of_findFragmentSpreads.
  intros (def & Hin & Hname). exists def. split; [|done].
  by apply (sublist_subseteq _ _ Hsub).
Qed.

Lemma elem_of_prunePass document def :
  def ∈ definitions (prunePass document) ↔
  def ∈ definitions document ∧
  retained (findFragmentSpreads document ∅) def.
Proof. unfold prunePass. simpl. rewrite list_elem_of_filter. tauto. Qed.

(** A fragment whose name is still spread in the result was never dropped. *)
Lemma spread_in_result_retained document def name :
  def ∈ definitions document →
  fragmentName def = Some name →
  name ∈ findFragmentSpreads (removeUnusedFragments document) ∅ →
  def ∈ definitions (removeUnusedFragments document).
Proof.
  revert def name.
  apply (prune_ind (λ d r, ∀ def name,
    def ∈ definitions d → fragmentName def = Some name →
    name ∈ findFragmentSpreads r ∅ → def ∈ definitions r)).
  - done.
  - intros d _ IH def name Hin Hname Hused.
    apply (IH def name); [|done..].
    apply elem_of_prunePass. split; [done|].
    destruct def; simplify_eq/=.
    eapply findFragmentSpreads_mono; [|exact Hused].
    etrans; [apply removeUnusedFragments_sublist|apply prunePass_sublist].
Qed.

Lemma recursionDepth_iter document :
  removeUnusedFragments document
  = Nat.iter (S (recursionDepth document)) prunePass document
  ∧ recursionDepth document ≤ length (definitions document)
  ∧ ∀ k, k < recursionDepth document →
      length (definitions (Nat.iter (S k) prunePass document))
      < length (definitions (Nat.iter k prunePass document)).
Proof.
  remember (length (definitions document)) as n eqn:Hn. revert document Hn.
  induction n as [n IH] using lt_wf_ind. intros d ->.
  rewrite removeUnusedFragments_pass, recursionDepth_pass.
  destruct (decide _) as [Heq|Hne].
  - split; [done|]. split; [lia|]. intros k Hk. lia.
  - pose proof (prunePass_length d) as Hle.
    destruct (IH (length (definitions (prunePass d))) ltac:(lia)
                (prunePass d) eq_refl) as (Hiter & Hdepth & Hdec).
    split; [|split].
    + rewrite Hiter. by rewrite <- !Nat.iter_succ_r.
    + lia.
    + intros [|k] Hk.
      * change (length (definitions (prunePass d)) < length (definitions d)).
        lia.
      * rewrite (Nat.iter_succ_r (S k) prunePass d),
          (Nat.iter_succ_r k prunePass d).
        apply Hdec. lia.
Qed.

Lemma filterDuplicates_keepFirst usedName earlier rest :
  (∀ name, name ∈ usedName ↔ name ∈ omap fragmentName earlier) →
  filterDuplicates usedName rest = keepFirst earlier rest.
Proof.
  revert usedName earlier.
  induction rest as [|def rest IH]; intros usedName earlier Hseen; [done|].
  assert (∀ used', (∀ name, name ∈ used' ↔
              name ∈ omap fragmentName earlier ++ omap fragmentName [def]) →
            filterDuplicates used' rest = keepFirst (earlier ++ [def]) rest)
    as Hnext.
  { intros used' Hused'. apply IH. intros name.
    by rewrite omap_app, Hused'. }
  destruct def as [?|name ? ?|? ?]; simpl.
  - f_equal. apply Hnext. intros n. rewrite Hseen. simpl. by rewrite app_nil_r.
  - unfold firstOfItsName. simpl. destruct (decide (name ∈ usedName)) as [Hin|Hnot].
    + rewrite bool_decide_eq_false_2 by (rewrite <- Hseen; tauto). simpl.
      apply Hnext. intros n. simpl. rewrite elem_of_app, list_elem_of_singleton.
      rewrite <- Hseen. split; [tauto|]. by intros [?| ->].
    + rewrite bool_decide_eq_true_2 by (by rewrite <- Hseen). simpl. f_equal.
      apply Hnext. intros n. simpl. rewrite elem_of_app, list_elem_of_singleton.
      rewrite <- Hseen. set_solver.
  - f_equal. apply Hnext. intros n. rewrite Hseen. simpl. by rewrite app_nil_r.
Qed.

(** C2: [removeDuplicateFragments] keeps, in their order, every definition
    that is not a fragment and the first fragment definition of each name,
    and drops every later fragment definition of a name already seen; the
    rest of the document is unchanged. *)
Theorem removeDuplicateFragments_keeps_first document :
  definitions (removeDuplicateFragments document)
  = keepFirst [] (definitions document)
  ∧ loc (removeDuplicateFragments document) = loc document.
Proof.
  split; [|done]. apply filterDuplicates_keepFirst.
  intros name. simpl. set_solver.
Qed.

Lemma reachable_spread defs name :
  reachable defs name → ∃ def, def ∈ defs ∧ name ∈ spreads def.
Proof. destruct 1; eauto. Qed.

Lemma reachable_prunePass document name :
  reachable (definitions document) name →
  reachable (definitions (prunePass document)) name.
Proof.
  induction 1 as [def name Hin Hop Hname|def via name Hin Hvia Hreach IH Hname].
  - eapply reach_operation; [|done..].
    apply elem_of_prunePass. split; [done|]. by destruct def.
  - eapply reach_fragment; [|done..].
    apply elem_of_prunePass. split; [done|].
    destruct def; simplify_eq/=.
    apply elem_of_findFragmentSpreads. by apply reachable_spread.
Qed.

Lemma reachable_removeUnusedFragments document name :
  reachable (definitions document) name →
  reachable (definitions (removeUnusedFragments document)) name.
Proof.
  apply (prune_ind (λ d r, reachable (definitions d) name →
                           reachable (definitions r) name)).
  - done.
  - intros d _ IH Hreach. by apply IH, reachable_prunePass.
Qed.

(** C3: a name reachable from an operation, in the input or in the pruned
    document, is reachable in the pruned document and has all its fragment
    definitions of the input retained there, so the spread resolves in the
    result unless no fragment of that name existed in the input. *)
Theorem prune_reachability_sound document name :
  reachable (definitions document) name
  ∨ reachable (definitions (removeUnusedFragments document)) name →
  reachable (definitions (removeUnusedFragments document)) name
  ∧ (∀ def, def ∈ definitions document → fragmentName def = Some name →
            def ∈ definitions (removeUnusedFragments document))
  ∧ ((∃ def, def ∈ definitions (removeUnusedFragments document)
             ∧ fragmentName def = Some name)
     ∨ ¬ ∃ def, def ∈ definitions document ∧ fragmentName def = Some name).
Proof.
  intros Hreach.
  assert (reachable (definitions (removeUnusedFragments document)) name)
    as Hreach'.
  { destruct Hreach; [by apply reachable_removeUnusedFragments|done]. }
  clear Hreach. split; [done|].
  assert (name ∈ findFragmentSpreads (removeUnusedFragments document) ∅)
    as Hused.
  { by apply elem_of_findFragmentSpreads, reachable_spread. }
  assert (∀ def, def ∈ definitions document → fragmentName def = Some name →
          def ∈ definitions (removeUnusedFragments document)) as Hkept.
  { intros def Hin Hname. by eapply spread_in_result_retained. }
  split; [exact Hkept|].
  destruct (decide (Exists (λ def, fragmentName def = Some name)
                      (definitions document))) as [Hex|Hno].
  - left. apply Exists_exists in Hex as (def & Hin & Hname). eauto.
  - right. intros (def & Hin & Hname). apply Hno, Exists_exists. eauto.
Qed.

(** C5: pruning is idempotent; the result is left unchanged by one more
    pass, and the loop returns exactly when a pass drops no definition. *)
Theorem removeUnusedFragments_idempotent document :
  removeUnusedFragments (removeUnusedFragments document)
  = removeUnusedFragments document
  ∧ prunePass (removeUnusedFragments document) = removeUnusedFragments document
  ∧ (length (definitions (prunePass document)) = length (definitions document)
     → removeUnusedFragments document = prunePass document)
  ∧ (length (definitions (prunePass document)) ≠ length (definitions document)
     → removeUnusedFragments document
       = removeUnusedFragments (prunePass document)).
Proof.
  assert (prunePass (removeUnusedFragments document)
          = removeUnusedFragments document) as Hfix.
  { apply (prune_ind (λ _ r, prunePass r = r)); auto. }
  split; [by apply removeUnusedFragments_fixed|]. split; [done|].
  rewrite (removeUnusedFragments_pass document).
  split; intros Hlen; destruct (decide _); congruence.
Qed.

(** C6: the pruned document has at most as many definitions as the input. *)
Theorem removeUnusedFragments_shrinks document :
  length (definitions (removeUnusedFragments document))
  ≤ length (definitions document).
Proof. apply sublist_length, removeUnusedFragments_sublist. Qed.

(** C7: the definitions of the deduplicated document and those of the
    pruned document are subsequences of the input definitions. *)
Theorem transforms_preserve_order document :
  definitions (removeDuplicateFragments document)
    `sublist_of` definitions document
  ∧ definitions (removeUnusedFragments document)
    `sublist_of` definitions document.
Proof.
  split; [apply filterDuplicates_sublist|apply removeUnusedFragments_sublist].
Qed.

(** C8: every pass either drops a definition and recurses or returns; the
    result is reached after [recursionDepth] recursive calls, each on a
    strictly shorter document, and their number is at most the number of
    definitions of the input. *)
Theorem removeUnusedFragments_terminates document :
  ((length (definitions (prunePass document)) = length (definitions document)
    ∧ removeUnusedFragments document = prunePass document)
   ∨ (length (definitions (prunePass document)) < length (definitions document)
      ∧ removeUnusedFragments document
        = removeUnusedFragments (prunePass document)))
  ∧ removeUnusedFragments document
    = Nat.iter (S (recursionDepth document)) prunePass document
  ∧ (∀ k, k < recursionDepth document →
       length (definitions (Nat.iter (S k) prunePass document))
       < length (definitions (Nat.iter k prunePass document)))
  ∧ recursionDepth document ≤ length (definitions document).
Proof.
  destruct (recursionDepth_iter document) as (Hiter & Hdepth & Hdec).
  split; [|done].
  rewrite (removeUnusedFragments_pass document).
  pose proof (prunePass_length document).
  destruct (decide _); [left|right]; split; (done || lia).
Qed.

(** C10: fragments each of which is spread by one of them, among them a
    fragment that spreads itself, are all retained by pruning, whether or
    not an operation reaches them. *)
Theorem prune_keeps_mutual_fragments document (cycle : list DefinitionNode) :
  (∀ f, f ∈ cycle →
     f ∈ definitions document
     ∧ ∃ name g, fragmentName f = Some name ∧ g ∈ cycle ∧ name ∈ spreads g) →
  ∀ f, f ∈ cycle → f ∈ definitions (removeUnusedFragments document).
Proof.
  intros Hcycle.
  assert (∀ f, f ∈ cycle → f ∈ definitions document) as Hin
    by (intros f Hf; by apply Hcycle).
  assert (∀ f, f ∈ cycle →
     ∃ name g, fragmentName f = Some name ∧ g ∈ cycle ∧ name ∈ spreads g)
    as Hspread by (intros f Hf; by apply Hcycle).
  clear Hcycle. revert Hin.
  apply (prune_ind (λ d r,
    (∀ f, f ∈ cycle → f ∈ definitions d) →
    ∀ f, f ∈ cycle → f ∈ definitions r)).
  - done.
  - intros d _ IH Hin. apply IH. intros f Hf.
    apply elem_of_prunePass. split; [by apply Hin|].
    destruct (Hspread f Hf) as (name & g & Hname & Hg & Hsp).
    destruct f; simplify_eq/=.
    apply elem_of_findFragmentSpreads. eauto.
Qed.

(** ** [Promise.all] joins by position *)

Lemma fulfilled_Some {A} (ps : list (outcome A)) values :
  fulfilled ps = Some values ↔ ps = Ok <$> values.
Proof.
  revert values. induction ps as [|p ps IH]; intros values; simpl.
  - split; [by intros [= <-]|]. by intros ->%symmetry%fmap_nil_inv.
  - destruct p as [a| |]; simpl.
    + destruct (fulfilled ps) as [vs|] eqn:Hps; simpl.
      * split.
        -- intros [= <-]. simpl. f_equal. by apply IH.
        -- destruct values as [|v values]; [done|]. intros [= -> Hrest].
           f_equal. f_equal. apply IH in Hrest. congruence.
      * split; [done|]. destruct values as [|v values]; [done|].
        intros [= _ Hrest]. apply IH in Hrest. done.
    + split; [done|]. by destruct values.
    + split; [done|]. by destruct values.
Qed.

Lemma firstRejection_fulfilled {A} (values : list A) order :
  firstRejection (Ok <$> values) order = None.
Proof.
  induction order as [|i order IH]; [done|]. simpl.
  unfold rejection. rewrite list_lookup_fmap.
  by destruct (values !! i).
Qed.

Lemma firstRejection_Some {A} (ps : list (outcome A)) order e :
  firstRejection ps order = Some e → ∃ i, ps !! i = Some (Throw e).
Proof.
  induction order as [|i order IH]; [done|]. simpl. unfold rejection.
  destruct (ps !! i) as [[| |]|] eqn:Hi; eauto. intros [= ->]. eauto.
Qed.

(** The whole is fulfilled exactly when every promise is, and then with the
    values in the order of the promises, whatever the settling order. *)
Lemma promiseAll_Ok {A} order (ps : list (outcome A)) values :
  promiseAll order ps = Ok values ↔ ps = Ok <$> values.
Proof.
  unfold promiseAll. split.
  - destruct (firstRejection _ _); [done|].
    destruct (fulfilled ps) eqn:Hps; [|done].
    intros [= <-]. by apply fulfilled_Some.
  - intros ->. rewrite firstRejection_fulfilled.
    by rewrite (proj2 (fulfilled_Some (Ok <$> values) values) eq_refl).
Qed.

(** A rejection of the whole is the rejection of one of the promises. *)
Lemma promiseAll_Throw {A} order (ps : list (outcome A)) e :
  promiseAll order ps = Throw e → ∃ i, ps !! i = Some (Throw e).
Proof.
  unfold promiseAll.
  destruct (firstRejection _ _) eqn:Hrej.
  - intros [= ->]. by eapply firstRejection_Some.
  - by destruct (fulfilled ps).
Qed.

Lemma bind_Ok {A B} (m : outcome A) (k : A → outcome B) b :
  m ≫= k = Ok b ↔ ∃ a, m = Ok a ∧ k a = Ok b.
Proof.
  destruct m; simpl; split; try done; try (intros (?&?&?); done).
  - eauto.
  - by intros (? & [= ->] & ?).
Qed.

(** ** Import lines *)

Lemma isQuote_not_terminator q : isQuote q = true → isLineTerminator q = false.
Proof.
  unfold isQuote, isLineTerminator, dquote, squote, LF, CR.
  intros [Hq|Hq]%orb_true_iff; apply bool_decide_eq_true in Hq; by subst.
Qed.

Lemma greedyUntilQuote_sound s body :
  greedyUntilQuote s = Some body →
  ∃ q rest, s = body ++ q :: rest ∧ isQuote q = true
            ∧ Forall (λ c, isLineTerminator c = false) body.
Proof.
  revert body. induction s as [|c s IH]; intros body; [done|]. simpl.
  destruct (isLineTerminator c) eqn:Hc; [done|].
  destruct (greedyUntilQuote s) as [body'|].
  - intros [= <-]. destruct (IH body' eq_refl) as (q & rest & -> & Hq & Hall).
    exists q, rest. split; [done|]. split; [done|]. by constructor.
  - destruct (isQuote c) eqn:Hq; [|done]. intros [= <-].
    exists c, s. split; [done|]. split; [done|]. constructor.
Qed.

Lemma greedyUntilQuote_complete body q rest :
  isQuote q = true → Forall (λ c, isLineTerminator c = false) body →
  is_Some (greedyUntilQuote (body ++ q :: rest)).
Proof.
  intros Hq. induction 1 as [|c body Hc _ IH]; simpl.
  - rewrite (isQuote_not_terminator q Hq), Hq.
    by destruct (greedyUntilQuote rest).
  - rewrite Hc. destruct IH as [b ->]. done.
Qed.

Lemma filePathMatch_quotedPath token :
  is_Some (filePathMatch token) ↔ quotedPath token.
Proof.
  split.
  - intros [path Hpath]. destruct token as [|q [|c rest]]; [done..|].
    unfold filePathMatch in Hpath.
    destruct (isQuote q) eqn:Hq; [|done].
    destruct (isLineTerminator c) eqn:Hc; [done|]. simpl in Hpath.
    destruct (greedyUntilQuote rest) as [body|] eqn:Hbody; [|done].
    apply greedyUntilQuote_sound in Hbody as (q' & rest' & -> & Hq' & Hall).
    exists q, (c :: body), q', rest'.
    split; [done|]. split; [done|]. split; [done|]. split; [done|].
    by constructor.
  - intros (q & body & q' & rest & -> & Hq & Hq' & Hne & Hall).
    destruct body as [|c body]; [done|]. inversion_clear Hall as [|?? Hc Hall'].
    unfold filePathMatch. simpl. rewrite Hq, Hc. simpl.
    destruct (greedyUntilQuote_complete body q' rest Hq' Hall') as [b ->]. done.
Qed.

Lemma importOfLine_Throw line e :
  importOfLine line = Throw e → e = ImportSyntaxError.
Proof.
  unfold importOfLine. destruct line as [|c afterHash]; [done|].
  repeat case_decide; try done.
  destruct (_ !! 1) as [[|??]|]; try by intros [= <-].
  destruct (filePathMatch _); [done|]. by intros [= <-].
Qed.

Lemma importOfLine_settles line : importOfLine line ≠ Pending.
Proof.
  unfold importOfLine. destruct line as [|c afterHash]; [done|].
  repeat case_decide; try done.
  destruct (_ !! 1) as [[|??]|]; try done.
  by destruct (filePathMatch _).
Qed.

Lemma importsOfLines_settles lines : importsOfLines lines ≠ Pending.
Proof.
  induction lines as [|line lines IH]; [done|]. simpl.
  pose proof (importOfLine_settles line).
  destruct (importOfLine line); simpl; [|done..].
  by destruct (importsOfLines lines).
Qed.

Lemma importsOfLines_Throw_inv lines e :
  importsOfLines lines = Throw e →
  ∃ line, line ∈ lines ∧ importOfLine line = Throw e.
Proof.
  induction lines as [|line lines IH]; [done|]. simpl.
  destruct (importOfLine line) as [request|e'|] eqn:Hline; simpl.
  - destruct (importsOfLines lines) as [requests|e'|]; simpl; try done.
    intros [= ->]. destruct (IH eq_refl) as (l & Hin & Hl).
    exists l. split; [by right|done].
  - intros [= ->]. exists line. split; [left|done].
  - done.
Qed.

Lemma importsOfLines_Throw_intro lines line e :
  line ∈ lines → importOfLine line = Throw e →
  ∃ e', importsOfLines lines = Throw e'.
Proof.
  induction lines as [|l lines IH]; [by intros ?%elem_of_nil|].
  intros [->|Hin]%elem_of_cons Hline; simpl.
  - rewrite Hline. simpl. eauto.
  - pose proof (importOfLine_settles l).
    destruct (importOfLine l); simpl; [|by eauto|done].
    destruct (IH Hin Hline) as [e' ->]. simpl. eauto.
Qed.

(** The scan throws exactly when the callback throws on one of the lines. *)
Lemma importsOfLines_Throw lines :
  importsOfLines lines = Throw ImportSyntaxError ↔
  ∃ line, line ∈ lines ∧ importOfLine line = Throw ImportSyntaxError.
Proof.
  split; [apply importsOfLines_Throw_inv|].
  intros (line & Hin & Hline).
  destruct (importsOfLines_Throw_intro lines line _ Hin Hline) as [e He].
  destruct (importsOfLines_Throw_inv lines e He) as (l & _ & Hl).
  apply importOfLine_Throw in Hl. by subst.
Qed.

(** The scan lists the requested paths in the order of the lines. *)
Lemma scanImports_line_order source imports :
  scanImports source = Ok imports →
  imports = omap requestedPath (splitLines source).
Proof.
  unfold scanImports. generalize (splitLines source). intros lines.
  revert imports. induction lines as [|line lines IH]; intros imports; simpl.
  - by intros [= <-].
  - destruct (importOfLine line) as [request| |] eqn:Hline; simpl; [|done..].
    destruct (importsOfLines lines) as [requests| |]; simpl; [|done..].
    intros [= <-]. unfold requestedPath at 1. rewrite Hline.
    rewrite (IH requests eq_refl). by destruct request.
Qed.

(** ** Import expansion *)

Section ExpansionProperties.

Variable graphqlParse : jsstr → option DocumentNode.
Variable resolve : jsstr → jsstr → option jsstr.
Variable readFile : jsstr → option jsstr.
Variable dirname : jsstr → jsstr.

Local Abbreviation loadSource := (loadSource graphqlParse resolve readFile dirname).
Local Abbreviation mergedDefinitions :=
  (mergedDefinitions graphqlParse resolve readFile dirname).

Lemma collectDefinitions_concat nodes :
  collectDefinitions nodes = concat (definitions <$> nodes).
Proof.
  unfold collectDefinitions.
  assert (∀ acc, foldl (λ defs node, defs ++ definitions node) acc nodes
                 = acc ++ concat (definitions <$> nodes)) as Hacc.
  { induction nodes as [|node nodes IH]; intros acc; simpl.
    - by rewrite app_nil_r.
    - by rewrite IH, <- app_assoc. }
  apply (Hacc []).
Qed.

Lemma mergedDefinitions_mono fuel fuel' resolveContext source defs :
  fuel ≤ fuel' →
  mergedDefinitions fuel resolveContext source = Some defs →
  mergedDefinitions fuel' resolveContext source = Some defs.
Proof.
  revert fuel' resolveContext source defs.
  induction fuel as [|fuel IH]; intros fuel' ctx source defs Hle; [done|].
  destruct fuel' as [|fuel']; [lia|]. simpl.
  destruct (graphqlParse source) as [root|]; [|done]. simpl.
  destruct (scanImports source) as [imports| |]; [|done..]. simpl.
  destruct (mapM _ imports) as [blocks|] eqn:Hblocks; [|done]. simpl.
  intros [= <-].
  rewrite (mapM_Some_2 _ imports blocks); [done|].
  apply mapM_Some_1 in Hblocks.
  eapply Forall2_impl; [exact Hblocks|]. simpl. intros filePath block.
  destruct (resolve ctx filePath) as [file|]; [|done]. simpl.
  destruct (readFile file) as [content|]; [|done]. simpl.
  apply IH. lia.
Qed.

(** The blocks of the imports, from the three joins of one call. *)
Lemma blocks_of_imports fuel resolveContext imports files contents nodes :
  resolveImport resolve resolveContext <$> imports = Ok <$> files →
  readContent readFile dirname <$> files = Ok <$> contents →
  Forall2 (λ c node, mergedDefinitions fuel c.1 c.2
                     = Some (definitions node)) contents nodes →
  mapM (λ filePath,
          file ← resolve resolveContext filePath;
          content ← readFile file;
          mergedDefinitions fuel (dirname file) content) imports
  = Some (definitions <$> nodes).
Proof.
  intros Hfiles Hcontents Hnodes. apply mapM_Some_2.
  revert files contents nodes Hfiles Hcontents Hnodes.
  induction imports as [|filePath imports IH];
    intros files contents nodes Hfiles Hcontents Hnodes.
  - destruct files; [|done]. destruct contents; [|done].
    inversion Hnodes. constructor.
  - destruct files as [|file files]; [done|].
    destruct contents as [|content contents]; [done|].
    injection Hfiles as Hfile Hfiles. injection Hcontents as Hcontent Hcontents.
    inversion_clear Hnodes as [|???? Hnode Hnodes']. simpl.
    constructor; [|by eapply IH].
    unfold resolveImport in Hfile. unfold readContent in Hcontent.
    destruct (resolve resolveContext filePath); simplify_eq/=.
    destruct (readFile file); simplify_eq/=. done.
Qed.

Lemma loadEach_fulfilled schedules contents nodes :
  Forall (λ s, ∀ ctx src doc, loadSource s ctx src = Ok doc →
               ∃ fuel, mergedDefinitions fuel ctx src
                       = Some (definitions doc)) schedules →
  loadEach loadSource schedules contents = Ok <$> nodes →
  ∃ fuel, Forall2 (λ c node, mergedDefinitions fuel c.1 c.2
                             = Some (definitions node)) contents nodes.
Proof.
  intros Hall. revert contents nodes.
  induction Hall as [|s schedules Hs _ IH]; intros contents nodes; simpl.
  - destruct contents, nodes; try done. intros _. exists 0. constructor.
  - destruct contents as [|[ctx content] contents]; simpl.
    + destruct nodes; [|done]. intros _. exists 0. constructor.
    + destruct nodes as [|node nodes]; [done|]. simpl.
      intros [= Hnode Hrest].
      destruct (IH _ _ Hrest) as [fuel Hfuel].
      destruct (Hs _ _ _ Hnode) as [fuel' Hfuel'].
      exists (fuel' `max` fuel). constructor.
      * simpl. eapply mergedDefinitions_mono; [|exact Hfuel']. lia.
      * eapply Forall2_impl; [exact Hfuel|]. simpl. intros c n.
        apply mergedDefinitions_mono. lia.
Qed.

Lemma loadSource_merged schedule resolveContext source document :
  loadSource schedule resolveContext source = Ok document →
  ∃ root fuel,
    graphqlParse source = Some root
    ∧ loc document = loc root
    ∧ mergedDefinitions fuel resolveContext source
      = Some (definitions document).
Proof.
  revert resolveContext source document.
  induction schedule as [resolved read loaded imported IH]
    using Schedule_induction.
  intros ctx source document. simpl.
  destruct (graphqlParse source) as [root|] eqn:Hparse; [|done].
  unfold extractImports.
  intros (imports & Hscan & Hrest)%bind_Ok.
  apply bind_Ok in Hrest as (files & Hfiles%promiseAll_Ok & Hrest).
  apply bind_Ok in Hrest as (contents & Hcontents%promiseAll_Ok & Hrest).
  apply bind_Ok in Hrest as (nodes & Hnodes%promiseAll_Ok & [= <-]).
  destruct (loadEach_fulfilled imported contents nodes) as [fuel Hfuel];
    [|done|].
  { eapply Forall_impl; [exact IH|]. simpl. intros s Hs c src doc Hdoc.
    destruct (Hs c src doc Hdoc) as (_ & fuel & _ & _ & Hm). eauto. }
  exists root, (S fuel). split; [done|]. split; [done|]. simpl.
  rewrite Hparse, Hscan. simpl.
  rewrite (blocks_of_imports fuel ctx imports files contents nodes)
    by done.
  simpl. by rewrite collectDefinitions_concat.
Qed.

(** C1: the document [loadSource] returns keeps the rest of the root
    document and lists the root definitions first, then, in the order of
    the import lines, the whole definitions of each imported document
    expanded in the same way; and every order in which the resolutions,
    reads and nested loads settle returns this same document. *)
Theorem loadSource_merge_order schedule resolveContext source document :
  loadSource schedule resolveContext source = Ok document →
  (∃ root fuel,
     graphqlParse source = Some root
     ∧ loc document = loc root
     ∧ mergedDefinitions fuel resolveContext source
       = Some (definitions document))
  ∧ ∀ schedule' document',
      loadSource schedule' resolveContext source = Ok document' →
      document' = document.
Proof.
  intros Hdoc. split; [by eapply loadSource_merged|].
  intros schedule' document' Hdoc'.
  apply loadSource_merged in Hdoc as (root & fuel & Hroot & Hloc & Hdefs).
  apply loadSource_merged in Hdoc' as (root' & fuel' & Hroot' & Hloc' & Hdefs').
  destruct document as [l defs], document' as [l' defs']. simpl in *.
  f_equal; [congruence|].
  apply (mergedDefinitions_mono _ (fuel `max` fuel')) in Hdefs; [|lia].
  apply (mergedDefinitions_mono _ (fuel `max` fuel')) in Hdefs'; [|lia].
  congruence.
Qed.

(** C4, as the code has it: on a line taken for an import statement the
    scan throws exactly when the second token, split at spaces, is missing
    or does not start with a quote, one or more characters other than line
    terminators and a quote of either kind. The unquoted
    [#import foo.graphql] throws, and a source with a line that throws
    fails to expand whenever it parses. *)
Theorem import_line_error line :
  isImportLine line →
  (importOfLine line = Throw ImportSyntaxError ↔
     ¬ ∃ token, splitSpaces (tail line) !! 1 = Some token ∧ quotedPath token)
  ∧ importOfLine (js "#import foo.graphql") = Throw ImportSyntaxError
  ∧ ∀ schedule resolveContext source,
      line ∈ splitLines source →
      is_Some (graphqlParse source) →
      importOfLine line = Throw ImportSyntaxError →
      loadSource schedule resolveContext source = Throw ImportSyntaxError.
Proof.
  intros [Hhash Himport]. split; [|split].
  - destruct line as [|c afterHash]; [done|]. simpl in *.
    injection Hhash as ->. rewrite decide_True by done.
    rewrite decide_True by done.
    destruct (splitSpaces afterHash !! 1) as [[|t oken]|] eqn:Htoken.
    + split; [|done]. intros _ (token & [= <-] & Hq).
      apply filePathMatch_quotedPath in Hq. by destruct Hq.
    + destruct (filePathMatch (t :: oken)) as [path|] eqn:Hpath.
      * split; [done|]. intros Hno. destruct Hno. exists (t :: oken).
        split; [done|]. apply filePathMatch_quotedPath. by rewrite Hpath.
      * split; [|done]. intros _ (token & [= <-] & Hq).
        apply filePathMatch_quotedPath in Hq. rewrite Hpath in Hq.
        by destruct Hq.
    + split; [|done]. by intros _ (token & ? & _).
  - by vm_compute.
  - intros [resolved read loaded imported] ctx source Hin [root Hroot] Hthrow.
    simpl. rewrite Hroot. unfold extractImports, scanImports.
    rewrite (proj2 (importsOfLines_Throw (splitLines source))); [done|].
    eauto.
Qed.

Lemma roomy_narrower width width' depth schedule :
  width' ≤ width → roomy width depth schedule → roomy width' depth schedule.
Proof.
  intros Hle. revert schedule.
  induction depth as [|depth IH]; intros [resolved read loaded imported];
    [done|]. simpl.
  intros [Hlen Hall]. split; [lia|].
  eapply Forall_impl; [exact Hall|]. exact IH.
Qed.

(** The nested loads of imports whose blocks exist all return. *)
Lemma loadEach_returns width depth schedules contents blocks :
  Forall2 (λ c block, ∀ s, roomy width depth s →
             ∃ doc, loadSource s c.1 c.2 = Ok doc ∧ definitions doc = block)
          contents blocks →
  length contents ≤ length schedules →
  Forall (roomy width depth) schedules →
  ∃ nodes, loadEach loadSource schedules contents = Ok <$> nodes
           ∧ definitions <$> nodes = blocks.
Proof.
  intros Hblocks. revert schedules.
  induction Hblocks as [|[ctx content] block contents blocks Hblock _ IH];
    intros schedules Hlen Hall.
  - exists []. by destruct schedules.
  - destruct schedules as [|s schedules]; [simpl in Hlen; lia|].
    inversion_clear Hall as [|?? Hs Hall'].
    destruct (Hblock s Hs) as (doc & Hdoc & Hdefs).
    destruct (IH schedules) as (nodes & Hnodes & Hmap);
      [simpl in Hlen; lia|done|].
    exists (doc :: nodes). split.
    + rewrite fmap_cons, <- Hdoc, <- Hnodes. done.
    + by rewrite fmap_cons, Hdefs, Hmap.
Qed.

(** When the merged definitions exist, every schedule that says enough makes
    [loadSource] return them. *)
Lemma loadSource_returns fuel resolveContext source defs :
  mergedDefinitions fuel resolveContext source = Some defs →
  ∃ width, ∀ schedule, roomy width fuel schedule →
    ∃ document, loadSource schedule resolveContext source = Ok document
                ∧ definitions document = defs.
Proof.
  revert resolveContext source defs.
  induction fuel as [|fuel IH]; intros ctx source defs; [done|]. simpl.
  destruct (graphqlParse source) as [root|] eqn:Hparse; [|done]. simpl.
  destruct (scanImports source) as [imports| |] eqn:Hscan; [|done..]. simpl.
  destruct (mapM _ imports) as [blocks|] eqn:Hblocks; [|done]. simpl.
  intros [= <-]. apply mapM_Some_1 in Hblocks.
  assert (∃ width files contents,
            resolveImport resolve ctx <$> imports = Ok <$> files
            ∧ readContent readFile dirname <$> files = Ok <$> contents
            ∧ Forall2 (λ c block, ∀ s, roomy width fuel s →
                ∃ doc, loadSource s c.1 c.2 = Ok doc
                       ∧ definitions doc = block) contents blocks)
    as (width & files & contents & Hfiles & Hcontents & Hloads).
  { clear Hscan. induction Hblocks as [|filePath block imports blocks Hb _ IHb].
    - exists 0, [], []. by repeat split.
    - destruct IHb as (width & files & contents & Hfiles & Hcontents & Hloads).
      destruct (resolve ctx filePath) as [file|] eqn:Hfile; [|done].
      simpl in Hb.
      destruct (readFile file) as [content|] eqn:Hcontent; [|done].
      simpl in Hb. destruct (IH _ _ _ Hb) as [width' Hwidth'].
      exists (width `max` width'), (file :: files),
        ((dirname file, content) :: contents).
      split; [|split; [|constructor]].
      + rewrite !fmap_cons, Hfiles. f_equal.
        unfold resolveImport. by rewrite Hfile.
      + rewrite !fmap_cons, Hcontents. f_equal.
        unfold readContent. by rewrite Hcontent.
      + simpl. intros s Hs. apply Hwidth'.
        eapply roomy_narrower; [|exact Hs]. lia.
      + eapply Forall2_impl; [exact Hloads|]. simpl. intros c b Hc s Hs.
        apply Hc. eapply roomy_narrower; [|exact Hs]. lia. }
  exists (width `max` length imports).
  intros [resolved read loaded imported] [Hlen Hall].
  destruct (loadEach_returns width fuel imported contents blocks)
    as (nodes & Hnodes & Hmap).
  - done.
  - assert (length contents = length imports) as ->; [|lia].
    apply (f_equal length) in Hfiles. apply (f_equal length) in Hcontents.
    rewrite !length_fmap in Hfiles. rewrite !length_fmap in Hcontents. lia.
  - eapply Forall_impl; [exact Hall|]. intros s.
    apply roomy_narrower. lia.
  - eexists. simpl. rewrite Hparse. unfold extractImports.
    rewrite Hscan. simpl.
    rewrite (proj2 (promiseAll_Ok resolved _ files) Hfiles). simpl.
    rewrite (proj2 (promiseAll_Ok read _ contents) Hcontents). simpl.
    rewrite (proj2 (promiseAll_Ok loaded _ nodes) Hnodes). simpl.
    split; [done|]. simpl. by rewrite collectDefinitions_concat, Hmap.
Qed.

End ExpansionProperties.

(** ** The loader *)

Section LoaderProperties.

Variable graphqlParse : jsstr → option DocumentNode.
Variable resolve : jsstr → jsstr → option jsstr.
Variable readFile : jsstr → option jsstr.
Variable dirname : jsstr → jsstr.
Variable GraphQLSchema GraphQLError : Type.
Variable schemaFrom : jsstr → jsstr → outcome GraphQLSchema.
Variable graphqlValidate : GraphQLSchema → DocumentNode → list GraphQLError.
Variable graphqlPrint : DocumentNode → jsstr.
Variable JSON_stringify : jsstr → jsstr.
Variable minifyDocumentString : jsstr → jsstr.

Local Abbreviation loadSource := (loadSource graphqlParse resolve readFile dirname).
Local Abbreviation loadSchema := (loadSchema GraphQLSchema schemaFrom).
Local Abbreviation loader :=
  (loader graphqlParse resolve readFile dirname GraphQLSchema GraphQLError
     schemaFrom graphqlValidate graphqlPrint JSON_stringify
     minifyDocumentString).

(** C9: with validation on and the schema loaded, when the validator
    returns errors for the final document the loader emits each of them,
    in order, and still calls back with the module text: the printed
    document, minified if asked, behind the export prefix. *)
Theorem validation_errors_nonfatal this schedule source schema document
    errors :
  async this = true →
  o_validate (getOptions this) = true →
  loadSchema this (getOptions this) = Ok schema →
  loadSource schedule (context this) source = Ok document →
  let final :=
    if o_removeUnusedFragments (getOptions this)
    then removeUnusedFragments (removeDuplicateFragments document)
    else removeDuplicateFragments document in
  graphqlValidate schema final = errors →
  errors ≠ [] →
  let content := JSON_stringify (graphqlPrint final) in
  loader this schedule source
  = Finished GraphQLError errors
      (doneOutput
         ((if o_emitDefaultExport (getOptions this)
           then js "export default " else js "module.exports = ")
          ++ (if o_minify (getOptions this)
              then minifyDocumentString content else content))).
Proof.
  intros Hasync Hvalidate Hschema Hdoc final Herrors _ content.
  unfold loader, loadOptions.
  rewrite Hasync, Hvalidate, Hschema. simpl. rewrite Hdoc. simpl.
  fold final. by rewrite Herrors.
Qed.

End LoaderProperties.

(** ** The scenarios, evaluated *)

Example scenarioA_pruned :
  definitions (removeUnusedFragments Fixtures.scenarioA)
  = [Fixtures.query [Fixtures.spread "a"]; Fixtures.fragA].
Proof. by vm_compute. Qed.

Example chain_pruned :
  definitions (removeUnusedFragments Fixtures.chain)
  = [Fixtures.query [Fixtures.spread "a"; Fixtures.spread "missing"];
     Fixtures.chainA; Fixtures.chainC]
  ∧ recursionDepth Fixtures.chain = 2.
Proof. by vm_compute. Qed.

Example cyclic_unpruned :
  removeUnusedFragments Fixtures.cyclic = Fixtures.cyclic.
Proof. by vm_compute. Qed.

Example repeated_deduplicated :
  definitions (removeDuplicateFragments Fixtures.repeated)
  = [Fixtures.shared1; Fixtures.query [Fixtures.spread "shared"]; Fixtures.fragB].
Proof. by vm_compute. Qed.

Example rootSource_lines :
  splitLines Fixtures.rootSource
  = [Fixtures.importLine dquote "./a.graphql" dquote; [CR; LF];
     Fixtures.importLine squote "./b.graphql" squote; [LF];
     js "query { ...a ...b }"]
  ∧ scanImports Fixtures.rootSource = Ok [js "./a.graphql"; js "./b.graphql"].
Proof. by vm_compute. Qed.

Example expansion_in_import_order :
  loadSource Fixtures.parse Fixtures.resolveIn Fixtures.read Fixtures.dir
    Fixtures.secondFirst (js "/src") Fixtures.rootSource
  = Ok Fixtures.expanded
  ∧ loadSource Fixtures.parse Fixtures.resolveIn Fixtures.read Fixtures.dir
      Fixtures.inOrder (js "/src") Fixtures.rootSource
    = Ok Fixtures.expanded.
Proof. by vm_compute. Qed.

Example scenarioB_unquoted :
  loadSource Fixtures.parse Fixtures.resolveIn Fixtures.read Fixtures.dir
    Fixtures.idle (js "/src") Fixtures.unquotedSource
  = Throw ImportSyntaxError.
Proof. by vm_compute. Qed.

Example import_tokens :
  filePathMatch ([dquote] ++ js "a.graphql" ++ [dquote]) = Some (js "a.graphql")
  ∧ filePathMatch ([dquote] ++ js "a.graphql" ++ [squote]) = Some (js "a.graphql")
  ∧ filePathMatch ([squote] ++ js "a" ++ [squote] ++ js "b" ++ [dquote] ++ js "c")
    = Some (js "a" ++ [squote] ++ js "b")
  ∧ filePathMatch [dquote; dquote] = None
  ∧ filePathMatch (js "a.graphql") = None
  ∧ importOfLine (js "#import") = Throw ImportSyntaxError
  ∧ importOfLine (js "#import  " ++ [dquote] ++ js "a" ++ [dquote])
    = Throw ImportSyntaxError
  ∧ importOfLine (js "# import " ++ [dquote] ++ js "a" ++ [dquote]) = Ok None
  ∧ importOfLine (js " #import " ++ [dquote] ++ js "a" ++ [dquote]) = Ok None.
Proof. by vm_compute. Qed.

(** ** Instances *)

Lemma loadSource_merge_order_witness :
  loadSource Fixtures.parse Fixtures.resolveIn Fixtures.read Fixtures.dir
    Fixtures.secondFirst (js "/src") Fixtures.rootSource
  = Ok Fixtures.expanded
  ∧ (∃ root fuel,
       Fixtures.parse Fixtures.rootSource = Some root
       ∧ loc Fixtures.expanded = loc root
       ∧ mergedDefinitions Fixtures.parse Fixtures.resolveIn Fixtures.read
           Fixtures.dir fuel (js "/src") Fixtures.rootSource
         = Some (definitions Fixtures.expanded))
  ∧ ∀ schedule' document',
      loadSource Fixtures.parse Fixtures.resolveIn Fixtures.read Fixtures.dir
        schedule' (js "/src") Fixtures.rootSource = Ok document' →
      document' = Fixtures.expanded.
Proof.
  assert (loadSource Fixtures.parse Fixtures.resolveIn Fixtures.read
            Fixtures.dir Fixtures.secondFirst (js "/src") Fixtures.rootSource
          = Ok Fixtures.expanded) as Hrun by (by vm_compute).
  split; [exact Hrun|].
  exact (loadSource_merge_order Fixtures.parse Fixtures.resolveIn
           Fixtures.read Fixtures.dir Fixtures.secondFirst (js "/src")
           Fixtures.rootSource Fixtures.expanded Hrun).
Defined.

Lemma prune_reachability_sound_witness :
  reachable (definitions (removeUnusedFragments Fixtures.chain)) (js "c")
  ∧ (∀ def, def ∈ definitions Fixtures.chain →
            fragmentName def = Some (js "c") →
            def ∈ definitions (removeUnusedFragments Fixtures.chain))
  ∧ ((∃ def, def ∈ definitions (removeUnusedFragments Fixtures.chain)
             ∧ fragmentName def = Some (js "c"))
     ∨ ¬ ∃ def, def ∈ definitions Fixtures.chain
                ∧ fragmentName def = Some (js "c")).
Proof.
  apply (prune_reachability_sound Fixtures.chain (js "c")). left.
  apply (reach_fragment _ Fixtures.chainA (js "a") (js "c")).
  - apply list_elem_of_further, list_elem_of_here.
  - reflexivity.
  - apply (reach_operation _
             (Fixtures.query [Fixtures.spread "a"; Fixtures.spread "missing"])).
    + apply list_elem_of_here.
    + reflexivity.
    + by vm_compute.
  - by vm_compute.
Defined.

Lemma prune_keeps_mutual_fragments_witness :
  Fixtures.cycX ∈ definitions (removeUnusedFragments Fixtures.cyclic)
  ∧ Fixtures.cycY ∈ definitions (removeUnusedFragments Fixtures.cyclic)
  ∧ Fixtures.cycS ∈ definitions (removeUnusedFragments Fixtures.cyclic).
Proof.
  assert (∀ f, f ∈ [Fixtures.cycX; Fixtures.cycY; Fixtures.cycS] →
            f ∈ definitions (removeUnusedFragments Fixtures.cyclic)) as Hkept.
  { apply (prune_keeps_mutual_fragments Fixtures.cyclic
             [Fixtures.cycX; Fixtures.cycY; Fixtures.cycS]).
    intros f Hf.
    apply elem_of_cons in Hf as [->|Hf];
      [|apply elem_of_cons in Hf as [->|Hf];
        [|apply list_elem_of_singleton in Hf as ->]].
    - split; [apply list_elem_of_further, list_elem_of_here|].
      exists (js "x"), Fixtures.cycY.
      split; [reflexivity|]. split; [|by vm_compute].
      apply list_elem_of_further, list_elem_of_here.
    - split; [do 2 apply list_elem_of_further; apply list_elem_of_here|].
      exists (js "y"), Fixtures.cycX.
      split; [reflexivity|]. split; [|by vm_compute].
      apply list_elem_of_here.
    - split; [do 3 apply list_elem_of_further; apply list_elem_of_here|].
      exists (js "s"), Fixtures.cycS.
      split; [reflexivity|]. split; [|by vm_compute].
      do 2 apply list_elem_of_further. apply list_elem_of_here. }
  split; [|split]; apply Hkept.
  - apply list_elem_of_here.
  - apply list_elem_of_further, list_elem_of_here.
  - do 2 apply list_elem_of_further. apply list_elem_of_here.
Defined.

Lemma import_line_error_witness :
  isImportLine Fixtures.singleQuoted
  ∧ (importOfLine Fixtures.singleQuoted = Throw ImportSyntaxError ↔
       ¬ ∃ token, splitSpaces (tail Fixtures.singleQuoted) !! 1 = Some token
                  ∧ quotedPath token)
  ∧ importOfLine (js "#import foo.graphql") = Throw ImportSyntaxError
  ∧ ∀ schedule resolveContext source,
      Fixtures.singleQuoted ∈ splitLines source →
      is_Some (Fixtures.parse source) →
      importOfLine Fixtures.singleQuoted = Throw ImportSyntaxError →
      loadSource Fixtures.parse Fixtures.resolveIn Fixtures.read Fixtures.dir
        schedule resolveContext source = Throw ImportSyntaxError.
Proof.
  assert (isImportLine Fixtures.singleQuoted) as Hline by (by vm_compute).
  split; [exact Hline|].
  exact (import_line_error Fixtures.parse Fixtures.resolveIn Fixtures.read
           Fixtures.dir Fixtures.singleQuoted Hline).
Defined.

(** C4 as the specification words it fails: a path opened with a double
    quote and closed with a single one is not enclosed in matching quotes,
    and the scan takes it without throwing. *)
Lemma import_line_mismatched_quotes :
  isImportLine Fixtures.mismatched
  ∧ importOfLine Fixtures.mismatched = Ok (Some (js "foo.graphql"))
  ∧ ¬ (importOfLine Fixtures.mismatched = Throw ImportSyntaxError ↔
         ¬ ∃ token, splitSpaces (tail Fixtures.mismatched) !! 1 = Some token
                    ∧ enclosedInMatchingQuotes token).
Proof.
  split; [by vm_compute|]. split; [by vm_compute|].
  intros [_ Hthrows].
  assert (importOfLine Fixtures.mismatched = Throw ImportSyntaxError) as Hno;
    [|by vm_compute in Hno].
  apply Hthrows. intros (token & Htoken & q & body & Hq & ->).
  apply (inj Some) in Htoken.
  pose proof (f_equal head Htoken) as Hhead.
  pose proof (f_equal last Htoken) as Hlast.
  rewrite app_comm_cons, last_snoc in Hlast.
  vm_compute in Hhead, Hlast. congruence.
Qed.

Lemma validation_errors_nonfatal_witness :
  loader Fixtures.parse Fixtures.resolveIn Fixtures.read Fixtures.dir
    unit string Fixtures.schemaOf Fixtures.validate Fixtures.print
    Fixtures.stringify Fixtures.minify
    Fixtures.this Fixtures.secondFirst Fixtures.rootSource
  = Finished string ["Cannot query field f"; "Unknown type T"]%string
      (doneOutput
         (js "export default " ++ [dquote] ++ js "query { ...a ...b }"
          ++ [dquote])).
Proof.
  apply (validation_errors_nonfatal Fixtures.parse Fixtures.resolveIn
           Fixtures.read Fixtures.dir unit string Fixtures.schemaOf
           Fixtures.validate Fixtures.print Fixtures.stringify Fixtures.minify
           Fixtures.this Fixtures.secondFirst Fixtures.rootSource ()
           Fixtures.expanded).
  - reflexivity.
  - reflexivity.
  - reflexivity.
  - by vm_compute.
  - reflexivity.
  - discriminate.
Defined.

(** * Further properties *)

(** ** The deduplicator *)

Lemma filterDuplicates_again usedName defs :
  filterDuplicates usedName (filterDuplicates usedName defs)
  = filterDuplicates usedName defs.
Proof.
  revert usedName. induction defs as [|def defs IH]; intros usedName; [done|].
  destruct def as [?|name ? ?|? ?]; simpl; try (by rewrite IH).
  destruct (decide (name ∈ usedName)) as [Hin|Hnot]; [apply IH|].
  simpl. rewrite decide_False by done. by rewrite IH.
Qed.

(** X1: deduplicating a second time changes nothing. *)
Theorem removeDuplicateFragments_idempotent document :
  removeDuplicateFragments (removeDuplicateFragments document)
  = removeDuplicateFragments document.
Proof.
  unfold removeDuplicateFragments. simpl. f_equal.
  apply filterDuplicates_again.
Qed.

Lemma fragmentNames_filterDuplicates usedName defs name :
  name ∈ fragmentNames (filterDuplicates usedName defs) ↔
  name ∈ fragmentNames defs ∧ name ∉ usedName.
Proof.
  unfold fragmentNames. revert usedName.
  induction defs as [|def defs IH]; intros usedName; simpl.
  - split; [by intros ?%elem_of_nil|by intros [?%elem_of_nil _]].
  - destruct def as [?|n ? ?|? ?]; simpl; try apply IH.
    destruct (decide (n ∈ usedName)) as [Hin|Hnot]; simpl.
    + rewrite IH, elem_of_cons. split; [tauto|].
      intros [[->|?] ?]; [done|tauto].
    + rewrite !elem_of_cons, IH. split.
      * intros [->|[? ?]]; [tauto|]. split; [tauto|]. set_solver.
      * intros [[->|?] ?]; [tauto|].
        destruct (decide (name = n)) as [->|?]; [tauto|]. right.
        split; [done|]. set_solver.
Qed.

Lemma NoDup_filterDuplicates usedName defs :
  NoDup (fragmentNames (filterDuplicates usedName defs)).
Proof.
  revert usedName. induction defs as [|def defs IH]; intros usedName; simpl.
  - constructor.
  - destruct def as [?|n ? ?|? ?]; simpl; try apply IH.
    destruct (decide (n ∈ usedName)); [apply IH|].
    unfold fragmentNames. simpl. constructor; [|apply IH].
    intros Hin%fragmentNames_filterDuplicates. set_solver.
Qed.

(** X2: no two fragment definitions of the deduplicated document share a name,
    and the names defined are those of the input. *)
Theorem removeDuplicateFragments_unique_names document :
  NoDup (fragmentNames (definitions (removeDuplicateFragments document)))
  ∧ ∀ name,
      name ∈ fragmentNames (definitions (removeDuplicateFragments document))
      ↔ name ∈ fragmentNames (definitions document).
Proof.
  split; [apply NoDup_filterDuplicates|].
  intros name. simpl. rewrite fragmentNames_filterDuplicates. set_solver.
Qed.

Lemma filterDuplicates_others usedName defs :
  filter (λ def, fragmentName def = None) (filterDuplicates usedName defs)
  = filter (λ def, fragmentName def = None) defs.
Proof.
  revert usedName. induction defs as [|def defs IH]; intros usedName; [done|].
  destruct def as [?|n ? ?|? ?]; simpl.
  - rewrite !filter_cons_True by done. by rewrite IH.
  - rewrite (filter_cons_False _ (FragmentDefinition _ _ _)) by done.
    destruct (decide (n ∈ usedName)); [apply IH|].
    rewrite filter_cons_False by done. apply IH.
  - rewrite !filter_cons_True by done. by rewrite IH.
Qed.

Lemma filterDuplicates_unique usedName defs :
  NoDup (fragmentNames defs) →
  (∀ name, name ∈ fragmentNames defs → name ∉ usedName) →
  filterDuplicates usedName defs = defs.
Proof.
  unfold fragmentNames. revert usedName.
  induction defs as [|def defs IH]; intros usedName Hnodup Hfresh; [done|].
  destruct def as [?|n ? ?|? ?]; simpl in *.
  - f_equal. by apply IH.
  - apply NoDup_cons in Hnodup as [Hn Hnodup].
    rewrite decide_False by (apply Hfresh; left). f_equal.
    apply IH; [done|]. intros name Hname.
    assert (name ≠ n) by (by intros ->).
    specialize (Hfresh name ltac:(by right)). set_solver.
  - f_equal. by apply IH.
Qed.

(** X3: the deduplicator leaves a document alone exactly when its fragment
    names are already distinct. *)
Theorem removeDuplicateFragments_fixed_iff document :
  removeDuplicateFragments document = document
  ↔ NoDup (fragmentNames (definitions document)).
Proof.
  split.
  - intros <-. apply NoDup_filterDuplicates.
  - intros Hnodup. destruct document as [l defs].
    unfold removeDuplicateFragments. simpl in *. f_equal.
    apply filterDuplicates_unique; [done|]. set_solver.
Qed.

(** X4: operations and type-system definitions pass through the deduplicator
    untouched: all of them are kept, in their order. *)
Theorem removeDuplicateFragments_keeps_others document :
  filter (λ def, fragmentName def = None)
    (definitions (removeDuplicateFragments document))
  = filter (λ def, fragmentName def = None) (definitions document).
Proof. apply filterDuplicates_others. Qed.

(** ** The pruner *)

Lemma elem_of_foldl_visitSelection selections used name :
  name ∈ foldl visitSelection used selections ↔
  name ∈ used ∨ ∃ selection, selection ∈ selections
                             ∧ name ∈ visitSelection ∅ selection.
Proof.
  revert used. induction selections as [|sel sels IH]; intros used; simpl.
  - split; [auto|]. intros [?|(?&Hin&_)]; [done|]. by apply elem_of_nil in Hin.
  - rewrite IH. clear IH.
    assert (name ∈ visitSelection used sel
            ↔ name ∈ visitSelection ∅ sel ∨ name ∈ used) as ->.
    { destruct sel as [? [inner|]|?|? inner]; simpl;
        try rewrite (traverse_acc inner used); set_solver. }
    split.
    + intros [[?|?]|(s&?&?)]; eauto.
      * right. exists sel. split; [left|done].
      * right. exists s. split; [by right|done].
    + intros [?|(s&[->|?]%elem_of_cons&?)]; eauto.
Qed.

(** X5: [traverse] adds to the set exactly the names of the fragment spreads
    that occur in the selection set, at any depth, and nothing else. *)
Theorem traverse_collects_spreads selectionSet used name :
  name ∈ traverse selectionSet used
  ↔ name ∈ used ∨ spreadInSet name selectionSet.
Proof.
  revert used.
  induction selectionSet using selectionSet_induction
    with (Q := λ selection,
            name ∈ visitSelection ∅ selection
            ↔ spreadInSelection name selection).
  - intros used. rewrite traverse_foldl, elem_of_foldl_visitSelection.
    split; (intros [?|Hin]; [by left|right]).
    + destruct Hin as (sel & Hsel & Hname).
      apply (spread_in_set _ _ sel); [done|].
      rewrite Forall_forall in H. by apply H.
    + inversion_clear Hin as [? sel Hsel Hname].
      exists sel. split; [done|]. rewrite Forall_forall in H. by apply H.
  - simpl. rewrite IHselectionSet. split.
    + intros [?%elem_of_empty|?]; [done|]. by constructor.
    + inversion_clear 1. by right.
  - simpl. split; [by intros ?%elem_of_empty|inversion 1].
  - simpl. split.
    + intros ?%elem_of_union. assert (name = name0) as -> by set_solver.
      constructor.
    + inversion_clear 1. set_solver.
  - simpl. rewrite IHselectionSet. split.
    + intros [?%elem_of_empty|?]; [done|]. by constructor.
    + inversion_clear 1. by right.
Qed.

Lemma prune_result_fixed document :
  prunePass (removeUnusedFragments document) = removeUnusedFragments document.
Proof. apply (prune_ind (λ _ r, prunePass r = r)); auto. Qed.

(** Every fragment definition that survives pruning is spread by a
    definition that survives too. *)
Lemma pruned_fragments_are_spread document :
  Forall (λ def, ∀ name, fragmentName def = Some name →
            ∃ g, g ∈ definitions (removeUnusedFragments document)
                 ∧ name ∈ spreads g)
         (definitions (removeUnusedFragments document)).
Proof.
  apply Forall_forall. intros def Hdef name Hname.
  rewrite <- prune_result_fixed in Hdef.
  apply elem_of_prunePass in Hdef as [_ Hkept].
  destruct def; simplify_eq/=. by apply elem_of_findFragmentSpreads.
Qed.


Lemma prunePass_others document :
  filter (λ def, fragmentName def = None) (definitions (prunePass document))
  = filter (λ def, fragmentName def = None) (definitions document).
Proof.
  unfold prunePass. simpl.
  generalize (findFragmentSpreads document ∅). intros used.
  induction (definitions document) as [|def defs IH]; [done|].
  destruct def as [?|n ? ?|? ?].
  - rewrite (filter_cons_True (retained used)) by done.
    rewrite !filter_cons_True by done. by rewrite IH.
  - rewrite (filter_cons_False (λ def, fragmentName def = None)
               (FragmentDefinition _ _ _)) by done.
    rewrite (filter_cons (retained used)).
    destruct (decide _); [|done].
    by rewrite filter_cons_False by done.
  - rewrite (filter_cons_True (retained used)) by done.
    rewrite !filter_cons_True by done. by rewrite IH.
Qed.

(** X6: pruning never drops an operation or a type-system definition: all of
    them are kept, in their order. *)
Theorem removeUnusedFragments_keeps_others document :
  filter (λ def, fragmentName def = None)
    (definitions (removeUnusedFragments document))
  = filter (λ def, fragmentName def = None) (definitions document).
Proof.
  apply (prune_ind (λ d r,
    filter (λ def, fragmentName def = None) (definitions r)
    = filter (λ def, fragmentName def = None) (definitions d))).
  - done.
  - intros d _ ->. apply prunePass_others.
Qed.

Lemma selfSupported_retained document kept :
  selfSupported (definitions document) kept →
  ∀ f, f ∈ kept → f ∈ definitions (removeUnusedFragments document).
Proof.
  unfold selfSupported.
  apply (prune_ind (λ d r,
    (∀ f, f ∈ kept → f ∈ definitions d
       ∧ ∀ name, fragmentName f = Some name →
           ∃ g, g ∈ kept ∧ name ∈ spreads g) →
    ∀ f, f ∈ kept → f ∈ definitions r)).
  - intros d _ Hkept f Hf. by apply Hkept.
  - intros d _ IH Hkept. apply IH. intros f Hf.
    destruct (Hkept f Hf) as [Hin Hspread]. split; [|done].
    apply elem_of_prunePass. split; [done|].
    destruct f as [?|n ? ?|? ?]; simpl; [done| |done].
    destruct (Hspread n eq_refl) as (g & Hg & Hn).
    apply elem_of_findFragmentSpreads. exists g. split; [|done].
    by apply Hkept.
Qed.

(** X7: the pruned document is the largest collection of definitions of the
    input in which every fragment is spread by a member: a definition is
    kept exactly when it belongs to such a collection. *)
Theorem removeUnusedFragments_largest_supported document def :
  def ∈ definitions (removeUnusedFragments document)
  ↔ ∃ kept, selfSupported (definitions document) kept ∧ def ∈ kept.
Proof.
  split.
  - intros Hdef. exists (definitions (removeUnusedFragments document)).
    split; [|done]. intros f Hf. split.
    + by apply (sublist_subseteq _ _ (removeUnusedFragments_sublist document)).
    + pose proof (pruned_fragments_are_spread document) as Hall.
      rewrite Forall_forall in Hall. by apply Hall.
  - intros (kept & Hkept & Hdef). by eapply selfSupported_retained.
Qed.

Lemma filter_all_Forall {A} (P : A → Prop) `{!∀ x, Decision (P x)} (l : list A) :
  filter P l = l ↔ Forall P l.
Proof.
  split.
  - intros Heq. apply Forall_forall. intros x Hx.
    rewrite <- Heq in Hx. by apply list_elem_of_filter in Hx as [? _].
  - induction 1 as [|x l Hx _ IH]; [done|].
    by rewrite filter_cons_True, IH.
Qed.

(** X8: pruning leaves a document alone exactly when every fragment it defines
    is spread somewhere in it, by an operation or by a fragment. *)
Theorem removeUnusedFragments_fixed_iff document :
  removeUnusedFragments document = document
  ↔ Forall (retained (findFragmentSpreads document ∅)) (definitions document).
Proof.
  rewrite <- filter_all_Forall. split.
  - intros Heq. pose proof (prune_result_fixed document) as Hfix.
    rewrite Heq in Hfix. exact (f_equal definitions Hfix).
  - intros Heq. apply removeUnusedFragments_fixed.
    destruct document as [l defs]. unfold prunePass. simpl in *.
    by rewrite Heq.
Qed.

Lemma fragmentNames_sublist defs defs' :
  defs `sublist_of` defs' → fragmentNames defs `sublist_of` fragmentNames defs'.
Proof.
  unfold fragmentNames. induction 1 as [|def ?? _ IH|def ?? _ IH]; simpl.
  - done.
  - destruct (fragmentName def); [by apply sublist_skip|done].
  - destruct (fragmentName def); [by apply sublist_cons|done].
Qed.

(** X9: the document the loader prints when pruning is on, the pruned
    deduplicated document, has distinct fragment names and is left
    unchanged by both transforms. *)
Theorem pruned_deduplicated_stable document :
  let final := removeUnusedFragments (removeDuplicateFragments document) in
  NoDup (fragmentNames (definitions final))
  ∧ removeDuplicateFragments final = final
  ∧ removeUnusedFragments final = final.
Proof.
  intros final.
  assert (NoDup (fragmentNames (definitions final))) as Hnodup.
  { eapply sublist_NoDup.
    - apply (NoDup_filterDuplicates ∅ (definitions document)).
    - apply fragmentNames_sublist, removeUnusedFragments_sublist. }
  split; [done|]. split.
  - destruct final as [l defs]. unfold removeDuplicateFragments.
    simpl in *. f_equal. apply filterDuplicates_unique; [done|]. set_solver.
  - apply removeUnusedFragments_fixed, prune_result_fixed.
Qed.

(** ** The scan for import lines *)

Lemma splitLines_cons source : ∃ piece pieces, splitLines source = piece :: pieces.
Proof.
  destruct source as [|c rest]; simpl; [eauto|].
  repeat case_decide; try (destruct rest; repeat case_decide); eauto.
  all: destruct (splitLines _); eauto.
Qed.

Lemma splitLines_pieces source :
  concat (splitLines source) = source
  ∧ ∀ i piece, splitLines source !! i = Some piece →
      if Nat.even i then ((CR ∉ piece) ∧ (LF ∉ piece)) else isLineBreak piece.
Proof.
  remember (length source) as n eqn:Hn. revert source Hn.
  induction n as [n IH] using lt_wf_ind. intros source ->.
  destruct source as [|c rest].
  { split; [done|]. intros [|i] piece; simpl; [|done].
    intros [= <-]. split; by intros ?%elem_of_nil. }
  assert (∀ s, length s < length (c :: rest) →
            concat (splitLines s) = s
            ∧ ∀ i piece, splitLines s !! i = Some piece →
                if Nat.even i then ((CR ∉ piece) ∧ (LF ∉ piece))
                else isLineBreak piece) as IH'.
  { intros s Hs. by eapply IH. }
  clear IH.
  assert (∀ sep tail, isLineBreak sep → length tail < length (c :: rest) →
            concat ([] :: sep :: splitLines tail) = sep ++ tail
            ∧ ∀ i piece, ([] :: sep :: splitLines tail) !! i = Some piece →
                if Nat.even i then ((CR ∉ piece) ∧ (LF ∉ piece))
                else isLineBreak piece) as Hbreak.
  { intros sep tail Hsep Htail. destruct (IH' tail Htail) as [Hcat Hpieces].
    split; [simpl; by rewrite Hcat|].
    intros [|[|i]] piece; simpl.
    - intros [= <-]. split; by intros ?%elem_of_nil.
    - by intros [= <-].
    - apply Hpieces. }
  simpl. destruct (decide (c = CR)) as [->|Hcr].
  - destruct rest as [|c' rest'].
    + apply (Hbreak [CR] []); [right; by left|simpl; lia].
    + destruct (decide (c' = LF)) as [->|Hlf].
      * apply (Hbreak [CR; LF] rest'); [by left|simpl; lia].
      * apply (Hbreak [CR] (c' :: rest')); [right; by left|simpl; lia].
  - destruct (decide (c = LF)) as [->|Hlf].
    + apply (Hbreak [LF] rest); [right; by right|simpl; lia].
    + destruct (IH' rest ltac:(simpl; lia)) as [Hcat Hpieces].
      destruct (splitLines_cons rest) as (piece & pieces & Hsplit).
      rewrite Hsplit in *. split; [simpl in *; by rewrite Hcat|].
      intros [|i] p; simpl.
      * intros [= <-]. destruct (Hpieces 0 piece eq_refl) as [Hc Hl].
        split; intros [?|?]%elem_of_cons; done.
      * apply (Hpieces (S i)).
Qed.

(** X10: the pieces the scan walks over are the whole source, cut at its line
    breaks: put together again they give the source, the pieces at even
    positions hold no carriage return or line feed, and those at odd
    positions are the line breaks. *)
Theorem splitLines_partitions source :
  concat (splitLines source) = source
  ∧ ∀ i piece, splitLines source !! i = Some piece →
      if Nat.even i then ((CR ∉ piece) ∧ (LF ∉ piece)) else isLineBreak piece.
Proof. apply splitLines_pieces. Qed.

Lemma splitLines_line line sep rest :
  CR ∉ line → LF ∉ line → isLineBreak sep →
  (sep = [CR] → head rest ≠ Some LF) →
  splitLines (line ++ sep ++ rest) = line :: sep :: splitLines rest.
Proof.
  intros Hcr Hlf Hsep Hrest. induction line as [|c line IH].
  - destruct Hsep as [-> | [-> | ->]]; simpl.
    + done.
    + destruct rest as [|c' rest']; [done|].
      rewrite decide_False; [done|]. intros ->. by apply Hrest.
    + done.
  - simpl. rewrite decide_False by (intros ->; apply Hcr; left).
    rewrite decide_False by (intros ->; apply Hlf; left).
    rewrite IH; [done|..].
    + intros ?. apply Hcr. by right.
    + intros ?. apply Hlf. by right.
Qed.

(** X11: the scan treats the three styles of line ending alike: a first line
    followed by a line feed, by a carriage return and line feed, or by a
    lone carriage return is handled on its own, and the scan goes on with
    the text behind the line break. *)
Theorem scanImports_line_by_line line sep rest :
  CR ∉ line → LF ∉ line → isLineBreak sep →
  (sep = [CR] → head rest ≠ Some LF) →
  scanImports (line ++ sep ++ rest)
  = (request ← importOfLine line;
     requests ← scanImports rest;
     Ok (match request with
         | Some filePath => filePath :: requests
         | None => requests
         end)).
Proof.
  intros Hcr Hlf Hsep Hrest. unfold scanImports.
  rewrite splitLines_line by done. simpl.
  assert (importOfLine sep = Ok None) as ->.
  { by destruct Hsep as [-> | [-> | ->]]. }
  simpl. destruct (importOfLine line); simpl; [|done..].
  by destruct (importsOfLines (splitLines rest)).
Qed.

Lemma greedyUntilQuote_None rest :
  greedyUntilQuote rest = None ↔ noQuoteAhead rest.
Proof.
  split.
  - intros Hnone (more & q & tail & -> & Hq & Hmore).
    destruct (greedyUntilQuote_complete more q tail Hq Hmore) as [? Hsome].
    congruence.
  - intros Hno. destruct (greedyUntilQuote rest) as [body|] eqn:Hbody; [|done].
    destruct Hno.
    apply greedyUntilQuote_sound in Hbody as (q & tail & -> & Hq & Hall).
    eauto 6.
Qed.

Lemma greedyUntilQuote_longest s body :
  greedyUntilQuote s = Some body ↔
  ∃ q rest, s = body ++ q :: rest ∧ isQuote q = true
            ∧ Forall (λ c, isLineTerminator c = false) body
            ∧ noQuoteAhead rest.
Proof.
  split.
  - revert body. induction s as [|c s IH]; intros body; [done|]. simpl.
    destruct (isLineTerminator c) eqn:Hc; [done|].
    destruct (greedyUntilQuote s) as [body'|] eqn:Hs.
    + intros [= <-].
      destruct (IH body' eq_refl) as (q & rest & -> & Hq & Hall & Hno).
      exists q, rest. split; [done|]. split; [done|]. split; [|done].
      by constructor.
    + destruct (isQuote c) eqn:Hq; [|done]. intros [= <-].
      exists c, s. split; [done|]. split; [done|]. split; [constructor|].
      by apply greedyUntilQuote_None.
  - intros (q & rest & -> & Hq & Hall & Hno).
    apply greedyUntilQuote_None in Hno.
    induction Hall as [|c body Hc _ IH]; simpl.
    + by rewrite (isQuote_not_terminator q Hq), Hno, Hq.
    + by rewrite Hc, IH.
Qed.

Lemma filePathMatch_longest token path :
  filePathMatch token = Some path ↔
  ∃ q q' rest,
    token = q :: path ++ q' :: rest
    ∧ isQuote q = true ∧ isQuote q' = true
    ∧ path ≠ [] ∧ Forall (λ c, isLineTerminator c = false) path
    ∧ noQuoteAhead rest.
Proof.
  unfold filePathMatch. split.
  - destruct token as [|q [|c rest]]; [done..|].
    destruct (isQuote q) eqn:Hq; [|done].
    destruct (isLineTerminator c) eqn:Hc; [done|]. simpl.
    destruct (greedyUntilQuote rest) as [body|] eqn:Hbody; [|done].
    intros [= <-].
    apply greedyUntilQuote_longest in Hbody as (q' & rest' & -> & Hq' & Hall & Hno).
    exists q, q', rest'.
    split; [done|]. split; [done|]. split; [done|]. split; [done|].
    split; [by constructor|done].
  - intros (q & q' & rest & -> & Hq & Hq' & Hne & Hall & Hno).
    destruct path as [|c body]; [done|].
    inversion_clear Hall as [|?? Hc Hall']. simpl. rewrite Hq, Hc. simpl.
    rewrite (proj2 (greedyUntilQuote_longest (body ++ q' :: rest) body)); [done|].
    eauto 6.
Qed.

(** X12: what the pattern captures: the token starts with a quote, the capture
    follows it, is not empty and holds no line terminator, a quote follows
    the capture, and no later quote could end a longer capture. The opening
    and the closing quote need not be the same character. *)
Theorem filePathMatch_capture token path :
  filePathMatch token = Some path ↔
  ∃ q q' rest,
    token = q :: path ++ q' :: rest
    ∧ isQuote q = true ∧ isQuote q' = true
    ∧ path ≠ [] ∧ Forall (λ c, isLineTerminator c = false) path
    ∧ noQuoteAhead rest.
Proof. apply filePathMatch_longest. Qed.

Lemma splitSpaces_token token rest :
  space ∉ token →
  splitSpaces (token ++ space :: rest) = token :: splitSpaces rest.
Proof.
  intros Hspace. induction token as [|c token IH]; simpl.
  - done.
  - rewrite decide_False by (intros ->; apply Hspace; left).
    rewrite IH; [done|]. intros ?. apply Hspace. by right.
Qed.

Lemma splitSpaces_last token :
  space ∉ token → splitSpaces token = [token].
Proof.
  intros Hspace. induction token as [|c token IH]; [done|]. simpl.
  rewrite decide_False by (intros ->; apply Hspace; left).
  rewrite IH; [done|]. intros ?. apply Hspace. by right.
Qed.

Lemma noQuoteAhead_nil : noQuoteAhead [].
Proof. intros (more & q & tail & Heq & _). by destruct more. Qed.

(** X13: a line made of [#import], one space and a quoted path asks for exactly
    that path, with single or double quotes on either side, and whatever
    follows the closing quote behind a space is ignored. The path may hold
    anything but spaces and line terminators. *)
Theorem importOfLine_quoted_path q q' path comment :
  isQuote q = true → isQuote q' = true →
  path ≠ [] → space ∉ path →
  Forall (λ c, isLineTerminator c = false) path →
  importOfLine (js "#import " ++ q :: path ++ [q']) = Ok (Some path)
  ∧ importOfLine (js "#import " ++ q :: path ++ q' :: space :: comment)
    = Ok (Some path).
Proof.
  intros Hq Hq' Hne Hspace Hall.
  assert (space ∉ q :: path ++ [q']) as Htoken.
  { intros [Heq|Hin]%elem_of_cons.
    - rewrite <- Heq in Hq. by vm_compute in Hq.
    - apply elem_of_app in Hin as [?|Heq%list_elem_of_singleton]; [done|].
      rewrite <- Heq in Hq'. by vm_compute in Hq'. }
  assert (filePathMatch (q :: path ++ [q']) = Some path) as Hmatch.
  { apply filePathMatch_longest. exists q, q', [].
    split; [done|]. split; [done|]. split; [done|]. split; [done|].
    split; [done|apply noQuoteAhead_nil]. }
  assert (js "import" ++ space :: q :: path ++ q' :: space :: comment
          = js "import" ++ space :: (q :: path ++ [q']) ++ space :: comment)
    as Hcomment.
  { simpl. by rewrite <- app_assoc. }
  change (js "#import " ++ ?l) with (hash :: js "import" ++ space :: l).
  unfold importOfLine. rewrite decide_True by done.
  cbv zeta. rewrite Hcomment.
  rewrite !(splitSpaces_token (js "import"))
    by (apply (bool_decide_unpack (space ∉ js "import")); by vm_compute).
  rewrite splitSpaces_token by done. rewrite splitSpaces_last by done.
  rewrite !decide_True by done.
  split; simpl; by rewrite Hmatch.
Qed.

(** ** Failures of the expansion *)

Lemma firstRejection_app {A} (ps : list (outcome A)) order order' :
  firstRejection ps (order ++ order')
  = match firstRejection ps order with
    | Some e => Some e
    | None => firstRejection ps order'
    end.
Proof.
  induction order as [|i order IH]; [done|]. simpl.
  by destruct (rejection ps i).
Qed.

Lemma firstRejection_elem {A} (ps : list (outcome A)) order i e :
  i ∈ order → ps !! i = Some (Throw e) → is_Some (firstRejection ps order).
Proof.
  intros Hin Hi. induction order as [|j order IH]; [by apply elem_of_nil in Hin|].
  simpl. destruct (rejection ps j) eqn:Hj; [done|].
  apply elem_of_cons in Hin as [->|Hin]; [|by apply IH].
  unfold rejection in Hj. by rewrite Hi in Hj.
Qed.

(** As soon as one promise rejects the whole rejects, with the error of one
    of the promises, also when other promises never settle. *)
Lemma promiseAll_rejects {A} order (ps : list (outcome A)) i e :
  ps !! i = Some (Throw e) →
  ∃ e' j, promiseAll order ps = Throw e' ∧ ps !! j = Some (Throw e').
Proof.
  intros Hi. unfold promiseAll.
  destruct (firstRejection ps (order ++ seq 0 (length ps))) as [e'|] eqn:Hrej.
  - destruct (firstRejection_Some _ _ _ Hrej) as [j Hj]. eauto.
  - rewrite firstRejection_app in Hrej.
    destruct (firstRejection ps order); [done|].
    destruct (firstRejection_elem ps (seq 0 (length ps)) i e) as [? Hsome];
      [|done|congruence].
    apply elem_of_seq. split; [lia|]. simpl. by eapply lookup_lt_Some.
Qed.

Lemma importOfLine_other line : ¬ isImportLine line → importOfLine line = Ok None.
Proof.
  unfold isImportLine, importOfLine. intros Hnot.
  destruct line as [|c afterHash]; [done|].
  destruct (decide (c = hash)) as [->|?]; [|done].
  destruct (decide _) as [Himport|?]; [|done].
  destruct Hnot. by split.
Qed.

Lemma fmap_Ok_lookup {A B} (f : A → outcome B) (l : list A) (l' : list B)
    (i : nat) (x : A) :
  f <$> l = Ok <$> l' → l !! i = Some x → ∃ y, l' !! i = Some y ∧ f x = Ok y.
Proof.
  intros Heq Hx. apply (f_equal (λ k, k !! i)) in Heq.
  rewrite !list_lookup_fmap, Hx in Heq. simpl in Heq.
  destruct (l' !! i) as [y|]; [|done]. exists y. split; [done|].
  by injection Heq.
Qed.

Section ExpansionFailures.

Variable graphqlParse : jsstr → option DocumentNode.
Variable resolve : jsstr → jsstr → option jsstr.
Variable readFile : jsstr → option jsstr.
Variable dirname : jsstr → jsstr.

Local Abbreviation loadSource := (loadSource graphqlParse resolve readFile dirname).

(** X14: a source none of whose lines is an import statement expands to its
    own parsed document, whatever else its comments say. *)
Theorem loadSource_without_imports schedule resolveContext source root :
  graphqlParse source = Some root →
  Forall (λ line, ¬ isImportLine line) (splitLines source) →
  loadSource schedule resolveContext source = Ok root.
Proof.
  intros Hroot Hlines.
  assert (scanImports source = Ok []) as Hscan.
  { unfold scanImports. induction Hlines as [|line lines Hline _ IH]; [done|].
    simpl. by rewrite (importOfLine_other line Hline), IH. }
  destruct schedule as [resolved read loaded imported]. simpl.
  rewrite Hroot. unfold extractImports. rewrite Hscan. simpl.
  rewrite (proj2 (promiseAll_Ok resolved [] [])) by done. simpl.
  rewrite (proj2 (promiseAll_Ok read [] [])) by done. simpl.
  rewrite (proj2 (promiseAll_Ok loaded _ [])) by (by destruct imported).
  simpl. destruct root as [l defs]. simpl. by rewrite app_nil_r.
Qed.

(** X15: an import that does not resolve is fatal: the expansion rejects with the
    resolution error in every settling order, before any file is read or
    parsed. *)
Theorem unresolved_import_is_fatal schedule resolveContext source root
    imports filePath :
  graphqlParse source = Some root →
  scanImports source = Ok imports →
  filePath ∈ imports →
  resolve resolveContext filePath = None →
  loadSource schedule resolveContext source = Throw ImportResolutionError.
Proof.
  intros Hroot Hscan Hin Hnone.
  destruct schedule as [resolved read loaded imported]. simpl.
  rewrite Hroot. unfold extractImports. rewrite Hscan. simpl.
  apply list_elem_of_lookup in Hin as [i Hi].
  destruct (promiseAll_rejects resolved
              (resolveImport resolve resolveContext <$> imports) i
              ImportResolutionError) as (e & j & -> & Hj).
  { rewrite list_lookup_fmap, Hi. simpl. unfold resolveImport.
    by rewrite Hnone. }
  simpl. rewrite list_lookup_fmap in Hj.
  destruct (imports !! j) as [p|]; [|done]. simpl in Hj.
  unfold resolveImport in Hj. destruct (resolve resolveContext p); [done|].
  by injection Hj as <-.
Qed.

(** X16: when every import resolves and one of the files cannot be read, the
    expansion rejects with the read error in every settling order, before
    any imported file is parsed. *)
Theorem unreadable_import_is_fatal schedule resolveContext source root
    imports files file :
  graphqlParse source = Some root →
  scanImports source = Ok imports →
  resolveImport resolve resolveContext <$> imports = Ok <$> files →
  file ∈ files →
  readFile file = None →
  loadSource schedule resolveContext source = Throw ReadError.
Proof.
  intros Hroot Hscan Hfiles Hin Hnone.
  destruct schedule as [resolved read loaded imported]. simpl.
  rewrite Hroot. unfold extractImports. rewrite Hscan. simpl.
  rewrite (proj2 (promiseAll_Ok resolved _ files) Hfiles). simpl.
  apply list_elem_of_lookup in Hin as [i Hi].
  destruct (promiseAll_rejects read
              (readContent readFile dirname <$> files) i ReadError)
    as (e & j & -> & Hj).
  { rewrite list_lookup_fmap, Hi. simpl. unfold readContent.
    by rewrite Hnone. }
  simpl. rewrite list_lookup_fmap in Hj.
  destruct (files !! j) as [f|]; [|done]. simpl in Hj.
  unfold readContent in Hj. destruct (readFile f); [done|].
  by injection Hj as <-.
Qed.

Lemma loadEach_lookup load schedules contents nodes i c :
  loadEach load schedules contents = Ok <$> nodes →
  contents !! i = Some c →
  ∃ s node, schedules !! i = Some s ∧ nodes !! i = Some node
            ∧ load s c.1 c.2 = Ok node.
Proof.
  revert contents nodes i.
  induction schedules as [|s schedules IH]; intros contents nodes i; simpl.
  - destruct contents as [|c' contents]; [done|].
    by destruct nodes.
  - destruct contents as [|[ctx content] contents]; [done|].
    destruct nodes as [|node nodes]; [done|]. simpl.
    intros [= Hnode Hrest]. destruct i as [|i]; simpl.
    + intros [= <-]. eauto.
    + intros Hc. by apply (IH contents nodes i).
Qed.

Lemma tc_last {A} (R : relation A) x z :
  tc R x z → R x z ∨ ∃ y, tc R x y ∧ R y z.
Proof.
  induction 1 as [x z Hxz|x w z Hxw _ IH]; [by left|].
  right. destruct IH as [Hwz|(y & Hwy & Hyz)].
  - exists w. split; [by apply tc_once|done].
  - exists y. split; [by eapply tc_l|done].
Qed.

Lemma Acc_no_cycle {A} (R : relation A) x : Acc R x → ¬ tc R x x.
Proof.
  intros Hacc.
  assert (Acc (tc R) x) as Htc.
  { induction Hacc as [x _ IH]. constructor. intros z Hz.
    apply tc_last in Hz as [Hzx|(y & Hzy & Hyx)]; [by apply IH|].
    by apply (Acc_inv (IH y Hyx)). }
  clear Hacc. induction Htc as [x _ IH]. intros Hxx. by apply (IH x Hxx).
Qed.

Lemma loadSource_accessible schedule resolveContext source document :
  loadSource schedule resolveContext source = Ok document →
  Acc (importedBy resolve readFile dirname) (resolveContext, source).
Proof.
  revert resolveContext source document.
  induction schedule as [resolved read loaded imported IH]
    using Schedule_induction.
  intros ctx source document. simpl.
  destruct (graphqlParse source) as [root|]; [|done].
  unfold extractImports.
  intros (imports & Hscan & Hrest)%bind_Ok.
  apply bind_Ok in Hrest as (files & Hfiles%promiseAll_Ok & Hrest).
  apply bind_Ok in Hrest as (contents & Hcontents%promiseAll_Ok & Hrest).
  apply bind_Ok in Hrest as (nodes & Hnodes%promiseAll_Ok & _).
  constructor. intros [ctx' source'] (imports' & p & f & Hscan' & Hp & Hf & Hread & Hdir).
  simpl in *. rewrite Hscan in Hscan'. injection Hscan' as <-.
  apply list_elem_of_lookup in Hp as [i Hi].
  destruct (fmap_Ok_lookup _ _ _ _ _ Hfiles Hi) as (f' & Hf' & Hres).
  unfold resolveImport in Hres. rewrite Hf in Hres. injection Hres as <-.
  destruct (fmap_Ok_lookup _ _ _ _ _ Hcontents Hf') as (c & Hc & Hrd).
  unfold readContent in Hrd. rewrite Hread, Hdir in Hrd. injection Hrd as <-.
  destruct (loadEach_lookup _ _ _ _ _ _ Hnodes Hc)
    as (s & node & Hs & _ & Hload).
  rewrite Forall_forall in IH.
  eapply (IH s); [|exact Hload]. by eapply list_elem_of_lookup_2.
Qed.

(** X18: the expansion returns a document only when no chain of imports below
    the root goes on for ever: a source that imports itself, directly or
    through other files, never yields a document. *)
Theorem loadSource_no_import_cycle schedule resolveContext source document :
  loadSource schedule resolveContext source = Ok document →
  ¬ tc (importedBy resolve readFile dirname)
       (resolveContext, source) (resolveContext, source).
Proof. intros Hdoc. by eapply Acc_no_cycle, loadSource_accessible. Qed.

(** X17: when everything is resolved and read and one of the nested loads
    rejects, the expansion rejects with the error of one of the nested
    loads, also when other nested loads never settle. *)
Theorem nested_rejection_is_fatal resolved read loaded imported
    resolveContext source root imports files contents i error :
  graphqlParse source = Some root →
  scanImports source = Ok imports →
  resolveImport resolve resolveContext <$> imports = Ok <$> files →
  readContent readFile dirname <$> files = Ok <$> contents →
  loadEach loadSource imported contents !! i = Some (Throw error) →
  ∃ error' j,
    loadSource (Settle resolved read loaded imported) resolveContext source
    = Throw error'
    ∧ loadEach loadSource imported contents !! j = Some (Throw error').
Proof.
  intros Hroot Hscan Hfiles Hcontents Hi. simpl.
  rewrite Hroot. unfold extractImports. rewrite Hscan. simpl.
  rewrite (proj2 (promiseAll_Ok resolved _ files) Hfiles). simpl.
  rewrite (proj2 (promiseAll_Ok read _ contents) Hcontents). simpl.
  destruct (promiseAll_rejects loaded _ i error Hi) as (e & j & -> & Hj).
  eauto.
Qed.

End ExpansionFailures.

Lemma firstRejection_None {A} (ps : list (outcome A)) order :
  (∀ i e, ps !! i ≠ Some (Throw e)) → firstRejection ps order = None.
Proof.
  intros Hno. induction order as [|i order IH]; [done|]. simpl.
  unfold rejection. destruct (ps !! i) as [[| |]|] eqn:Hi; try done.
  by destruct (Hno i error).
Qed.

(** Without a rejection the whole is fulfilled or never settles. *)
Lemma promiseAll_no_rejection {A} order (ps : list (outcome A)) :
  (∀ i e, ps !! i ≠ Some (Throw e)) →
  promiseAll order ps = Pending ∨ ∃ values, promiseAll order ps = Ok values.
Proof.
  intros Hno. unfold promiseAll. rewrite firstRejection_None by done.
  destruct (fulfilled ps); eauto.
Qed.

Section OrderIndependence.

Variable graphqlParse : jsstr → option DocumentNode.
Variable resolve : jsstr → jsstr → option jsstr.
Variable readFile : jsstr → option jsstr.
Variable dirname : jsstr → jsstr.

Local Abbreviation loadSource := (loadSource graphqlParse resolve readFile dirname).
Local Abbreviation mergedDefinitions :=
  (mergedDefinitions graphqlParse resolve readFile dirname).

Lemma loadEach_no_rejection fuel schedules contents blocks :
  (∀ ctx src defs, mergedDefinitions fuel ctx src = Some defs →
     ∀ s e, loadSource s ctx src ≠ Throw e) →
  Forall2 (λ c block, mergedDefinitions fuel c.1 c.2 = Some block)
          contents blocks →
  ∀ i e, loadEach loadSource schedules contents !! i ≠ Some (Throw e).
Proof.
  intros IH Hblocks. revert schedules.
  induction Hblocks as [|[ctx content] block contents blocks Hblock _ IHb];
    intros schedules i e.
  - by destruct schedules.
  - destruct schedules as [|s schedules].
    + change (loadEach loadSource [] ?c)
        with ((λ _ : jsstr * jsstr, Pending (A := DocumentNode)) <$> c).
      rewrite list_lookup_fmap.
      by destruct (((ctx, content) :: contents) !! i).
    + simpl. destruct i as [|i]; simpl.
      * intros [= Hthrow]. by eapply IH.
      * apply IHb.
Qed.

Lemma merged_never_rejects fuel resolveContext source defs :
  mergedDefinitions fuel resolveContext source = Some defs →
  ∀ schedule e, loadSource schedule resolveContext source ≠ Throw e.
Proof.
  revert resolveContext source defs.
  induction fuel as [|fuel IH]; intros ctx source defs; [done|]. simpl.
  destruct (graphqlParse source) as [root|] eqn:Hparse; [|done]. simpl.
  destruct (scanImports source) as [imports| |] eqn:Hscan; [|done..]. simpl.
  destruct (mapM _ imports) as [blocks|] eqn:Hblocks; [|done]. simpl.
  intros _ [resolved read loaded imported] e. simpl. rewrite Hparse.
  unfold extractImports. rewrite Hscan. simpl.
  apply mapM_Some_1 in Hblocks.
  assert (∃ files contents,
            resolveImport resolve ctx <$> imports = Ok <$> files
            ∧ readContent readFile dirname <$> files = Ok <$> contents
            ∧ Forall2 (λ c block, mergedDefinitions fuel c.1 c.2 = Some block)
                contents blocks)
    as (files & contents & Hfiles & Hcontents & Hloads).
  { clear Hscan. induction Hblocks as [|filePath block imports blocks Hb _ IHb].
    - exists [], []. split; [done|]. split; [done|]. constructor.
    - destruct IHb as (files & contents & Hfiles & Hcontents & Hloads).
      destruct (resolve ctx filePath) as [file|] eqn:Hfile; [|done].
      simpl in Hb.
      destruct (readFile file) as [content|] eqn:Hcontent; [|done].
      simpl in Hb.
      exists (file :: files), ((dirname file, content) :: contents).
      split; [|split; [|by constructor]].
      + rewrite !fmap_cons, Hfiles. f_equal.
        unfold resolveImport. by rewrite Hfile.
      + rewrite !fmap_cons, Hcontents. f_equal.
        unfold readContent. by rewrite Hcontent. }
  rewrite (proj2 (promiseAll_Ok resolved _ files) Hfiles). simpl.
  rewrite (proj2 (promiseAll_Ok read _ contents) Hcontents). simpl.
  destruct (promiseAll_no_rejection loaded
              (loadEach loadSource imported contents)) as [->|[nodes ->]];
    [|done..].
  eapply loadEach_no_rejection; [|exact Hloads].
  intros c src d Hd s e'. by eapply IH.
Qed.

(** Once one settling order yields a document, every other order yields the
    same document or never settles; none of them fails. *)
Lemma loadSource_any_order schedule schedule' resolveContext source document :
  loadSource schedule resolveContext source = Ok document →
  loadSource schedule' resolveContext source = Ok document
  ∨ loadSource schedule' resolveContext source = Pending.
Proof.
  intros Hdoc.
  pose proof (loadSource_merged _ _ _ _ _ _ _ _ Hdoc)
    as (root & fuel & Hroot & Hloc & Hdefs).
  destruct (loadSource schedule' resolveContext source)
    as [document'|e|] eqn:Hdoc'; [left|exfalso|by right].
  - pose proof (loadSource_merged _ _ _ _ _ _ _ _ Hdoc')
      as (root' & fuel' & Hroot' & Hloc' & Hdefs').
    destruct document as [l defs], document' as [l' defs']. simpl in *.
    f_equal. f_equal; [congruence|].
    apply (mergedDefinitions_mono _ _ _ _ _ (fuel `max` fuel')) in Hdefs;
      [|lia].
    apply (mergedDefinitions_mono _ _ _ _ _ (fuel `max` fuel')) in Hdefs';
      [|lia].
    congruence.
  - by eapply merged_never_rejects.
Qed.

End OrderIndependence.

(** ** Runs of the loader *)

Section LoaderRuns.

Variable graphqlParse : jsstr → option DocumentNode.
Variable resolve : jsstr → jsstr → option jsstr.
Variable readFile : jsstr → option jsstr.
Variable dirname : jsstr → jsstr.
Variable GraphQLSchema GraphQLError : Type.
Variable schemaFrom : jsstr → jsstr → outcome GraphQLSchema.
Variable graphqlValidate : GraphQLSchema → DocumentNode → list GraphQLError.
Variable graphqlPrint : DocumentNode → jsstr.
Variable JSON_stringify : jsstr → jsstr.
Variable minifyDocumentString : jsstr → jsstr.

Local Abbreviation loadSource := (loadSource graphqlParse resolve readFile dirname).
Local Abbreviation loadOptions := (loadOptions GraphQLSchema schemaFrom).
Local Abbreviation loader :=
  (loader graphqlParse resolve readFile dirname GraphQLSchema GraphQLError
     schemaFrom graphqlValidate graphqlPrint JSON_stringify
     minifyDocumentString).


(** X20: with [validate] on and no schema path in the options, every run that
    has a callback fails with the schema error, whatever the source is. *)
Theorem loader_validate_needs_schema this schedule source :
  async this = true →
  o_validate (getOptions this) = true →
  o_schema (getOptions this) = None ∨ o_schema (getOptions this) = Some [] →
  loader this schedule source
  = Finished GraphQLError [] (doneError SchemaLoadError).
Proof.
  intros Hasync Hvalidate Hschema.
  unfold loader, loadOptions.
  rewrite Hasync, Hvalidate. unfold loadSchema.
  by destruct Hschema as [-> | ->].
Qed.

(** X22: the outcome of a run does not hang on the order in which the reads
    settle: once one order calls back with output, every other order calls
    back with the same diagnostics and output or never calls back. *)
Theorem loader_any_order this schedule schedule' source emitted output :
  loader this schedule source
  = Finished GraphQLError emitted (doneOutput output) →
  loader this schedule' source
  = Finished GraphQLError emitted (doneOutput output)
  ∨ loader this schedule' source = Unsettled GraphQLError.
Proof.
  unfold loader. destruct (async this); [|done].
  destruct (loadOptions this) as [options| |]; simpl; [|done..].
  destruct (loadSource schedule (context this) source)
    as [document| |] eqn:Hdoc; simpl; [|done..].
  intros Hrun.
  destruct (loadSource_any_order graphqlParse resolve readFile dirname
              schedule schedule' _ _ _ Hdoc) as [-> | ->]; simpl;
    [by left|by right].
Qed.

End LoaderRuns.

Section LoaderWithoutValidation.

Variable graphqlParse : jsstr → option DocumentNode.
Variable resolve : jsstr → jsstr → option jsstr.
Variable readFile : jsstr → option jsstr.
Variable dirname : jsstr → jsstr.
Variable GraphQLSchema GraphQLError : Type.
Variable graphqlPrint : DocumentNode → jsstr.
Variable JSON_stringify : jsstr → jsstr.
Variable minifyDocumentString : jsstr → jsstr.

Local Abbreviation run schemaFrom graphqlValidate :=
  (loader graphqlParse resolve readFile dirname GraphQLSchema GraphQLError
     schemaFrom graphqlValidate graphqlPrint JSON_stringify
     minifyDocumentString).

(** X21: with [validate] off the schema option is not looked at: no schema is
    searched or built, the validator is not run, and whatever the schema
    files and the validator are the run is the same and emits no
    diagnostic. *)
Theorem loader_without_validate this schedule source
    schemaFrom schemaFrom' graphqlValidate graphqlValidate' :
  o_validate (getOptions this) = false →
  run schemaFrom graphqlValidate this schedule source
  = run schemaFrom' graphqlValidate' this schedule source
  ∧ ∀ emitted done,
      run schemaFrom graphqlValidate this schedule source
      = Finished GraphQLError emitted done →
      emitted = [].
Proof.
  intros Hvalidate. unfold loader, loadOptions. rewrite Hvalidate.
  destruct (async this); [|done]. simpl.
  destruct (loadSource _ _ _ _ _ _ _) as [document|e|]; simpl.
  - split; [done|]. by intros emitted done [= <- _].
  - split; [done|]. by intros emitted done [= <- _].
  - done.
Qed.

End LoaderWithoutValidation.

(** ** The schema file and the schema cache *)

Lemma filter_none {A} (P : A → Prop) `{!∀ x, Decision (P x)} (l : list A) :
  Forall (λ x, ¬ P x) l → filter P l = [].
Proof.
  induction 1 as [|x l Hx _ IH]; [done|]. by rewrite filter_cons_False.
Qed.

Section SchemaProperties.

Variable GraphQLSchema : Type.
Variable stat : jsstr → option Schema.Stats.
Variable readFile : jsstr → option jsstr.
Variable join : jsstr → jsstr → jsstr.
Variable dirname : jsstr → jsstr.
Variable buildClientSchema : jsstr → option GraphQLSchema.

Local Abbreviation isFileAt := (Schema.isFileAt stat).
Local Abbreviation findFileInTree := (Schema.findFileInTree stat join dirname).
Local Abbreviation candidates := (Schema.candidates join dirname).
Local Abbreviation loadSchema :=
  (Schema.loadSchema GraphQLSchema stat readFile join dirname buildClientSchema).

Lemma iter_fixed {A} (f : A → A) x j : f x = x → Nat.iter j f x = x.
Proof. intros Hx. induction j as [|j IH]; [done|]. simpl. by rewrite IH. Qed.

Lemma candidates_parent k context schemaPath :
  candidates (S k) context schemaPath
  = join context schemaPath :: candidates k (dirname context) schemaPath.
Proof.
  unfold Schema.candidates.
  change (seq 0 (S (S k))) with (0 :: seq 1 (S k)).
  rewrite fmap_cons. f_equal. rewrite <- fmap_S_seq, <- list_fmap_compose.
  apply list_fmap_ext. intros _ j _. unfold compose.
  by rewrite Nat.iter_succ_r.
Qed.

(** X23: the search goes from the context up to the root of the file system,
    the directory that is its own parent, and returns the first place that
    is a file; with no file on the way it fails. *)
Theorem findFileInTree_nearest fuel k context schemaPath :
  Nat.iter (S k) dirname context = Nat.iter k dirname context →
  k < fuel →
  findFileInTree fuel context schemaPath
  = match filter (λ fileName, isFileAt fileName = true)
            (candidates k context schemaPath) with
    | fileName :: _ => Ok fileName
    | [] => Throw SchemaLoadError
    end.
Proof.
  revert fuel context.
  induction k as [|k IH]; intros fuel context Hroot Hfuel;
    (destruct fuel as [|fuel]; [lia|]); simpl in Hroot |- *.
  - unfold Schema.candidates. simpl. rewrite filter_cons, filter_nil.
    destruct (isFileAt (join context schemaPath)) eqn:Hfile.
    + by rewrite (decide_True (P := true = true)).
    + rewrite (decide_False (P := false = true)) by done.
      by rewrite decide_True.
  - rewrite candidates_parent, filter_cons.
    destruct (isFileAt (join context schemaPath)) eqn:Hfile.
    + by rewrite (decide_True (P := true = true)).
    + rewrite (decide_False (P := false = true)) by done.
      destruct (decide (dirname context = context)) as [Hparent|Hparent].
      * rewrite filter_none; [done|].
        apply Forall_forall. intros f [j [-> _]]%list_elem_of_fmap.
        rewrite (iter_fixed dirname (dirname context)); [|by rewrite Hparent].
        rewrite Hparent. by rewrite Hfile.
      * apply IH; [|lia].
        rewrite <- !Nat.iter_succ_r. exact Hroot.
Qed.


(** X25: one call changes the cache at most at the schema file it has found, and
    only by storing the schema it returns with a later modification time
    than the entry it replaces; every other entry, and the whole cache when
    the call fails, stays as it was. *)
Theorem loadSchema_cache_step fuel loader options cachedSchemas path :
  Schema.cache _ (loadSchema fuel loader options cachedSchemas) !! path
  = cachedSchemas !! path
  ∨ ∃ entry,
      Schema.cache _ (loadSchema fuel loader options cachedSchemas) !! path
      = Some entry
      ∧ Schema.result _ (loadSchema fuel loader options cachedSchemas)
        = Ok (Schema.c_schema entry)
      ∧ Schema.dependencies _ (loadSchema fuel loader options cachedSchemas)
        = [path]
      ∧ ∀ old, cachedSchemas !! path = Some old →
          (Schema.c_mtime old < Schema.c_mtime entry)%Z.
Proof.
  unfold Schema.loadSchema.
  destruct (o_schema options) as [[|c p]|]; [by left| |by left].
  destruct (Schema.findFileInTree _ _ _ _ _ _) as [schemaPath| |];
    [|by left..].
  destruct (stat schemaPath) as [stats|]; [|by left].
  destruct (readFile schemaPath) as [schemaString|]; [|by left].
  assert (∀ built,
    <[schemaPath := {| Schema.c_mtime := Schema.mtime stats;
                       Schema.c_schema := built |}]> cachedSchemas !! path
    = cachedSchemas !! path
    ∨ path = schemaPath) as Hstep.
  { intros built. destruct (decide (path = schemaPath)) as [->|Hne];
      [by right|left]. by rewrite lookup_insert_ne. }
  destruct (cachedSchemas !! schemaPath) as [cached|] eqn:Hcached.
  - destruct (decide (Schema.mtime stats ≤ Schema.c_mtime cached)%Z);
      [by left|].
    destruct (buildClientSchema schemaString) as [built|]; [|by left].
    simpl. destruct (Hstep built) as [?| ->]; [by left|right].
    eexists. rewrite lookup_insert_eq. split; [done|]. split; [done|].
    split; [done|]. intros old. rewrite Hcached. intros [= <-]. simpl. lia.
  - destruct (buildClientSchema schemaString) as [built|]; [|by left].
    simpl. destruct (Hstep built) as [?| ->]; [by left|right].
    eexists. rewrite lookup_insert_eq. split; [done|]. split; [done|].
    split; [done|]. intros old. by rewrite Hcached.
Qed.

(** X26: once the schema file is found it is a dependency of the build, also
    when loading it then fails; and a schema that is returned is the one
    the cache then holds for that file, with a modification time no older
    than the file's. *)
Theorem loadSchema_found fuel loader options cachedSchemas c path
    schemaPath :
  o_schema options = Some (c :: path) →
  findFileInTree fuel (context loader) (c :: path) = Ok schemaPath →
  Schema.dependencies _ (loadSchema fuel loader options cachedSchemas)
  = [schemaPath]
  ∧ ∀ schema,
      Schema.result _ (loadSchema fuel loader options cachedSchemas)
      = Ok schema →
      ∃ entry stats,
        Schema.cache _ (loadSchema fuel loader options cachedSchemas)
          !! schemaPath = Some entry
        ∧ Schema.c_schema entry = schema
        ∧ stat schemaPath = Some stats
        ∧ (Schema.mtime stats ≤ Schema.c_mtime entry)%Z.
Proof.
  intros Hoption Hfound. unfold Schema.loadSchema.
  rewrite Hoption, Hfound.
  destruct (stat schemaPath) as [stats|]; [|done].
  destruct (readFile schemaPath) as [schemaString|]; [|done].
  destruct (cachedSchemas !! schemaPath) as [cached|] eqn:Hcached.
  - destruct (decide (Schema.mtime stats ≤ Schema.c_mtime cached)%Z).
    + simpl. split; [done|]. intros schema [= <-].
      exists cached, stats. by rewrite Hcached.
    + destruct (buildClientSchema schemaString) as [built|]; [|done].
      simpl. split; [done|]. intros schema [= <-].
      eexists _, stats. rewrite lookup_insert_eq.
      split; [done|]. split; [done|]. split; [done|]. simpl. lia.
  - destruct (buildClientSchema schemaString) as [built|]; [|done].
    simpl. split; [done|]. intros schema [= <-].
    eexists _, stats. rewrite lookup_insert_eq.
    split; [done|]. split; [done|]. split; [done|]. simpl. lia.
Qed.

End SchemaProperties.

(** ** The minifier *)

Lemma replaceAll_cons matchAt c rest :
  replaceAll matchAt (c :: rest)
  = match matchAt (c :: rest) with
    | Some (replacement, after) =>
        if decide (length after < length (c :: rest))
        then replacement ++ replaceAll matchAt after
        else c :: replaceAll matchAt rest
    | None => c :: replaceAll matchAt rest
    end.
Proof.
  rewrite replaceAll_equation_2.
  destruct (matchAt (c :: rest)) as [[replacement after]|]; [|done].
  simpl. by destruct (decide _).
Qed.

(** Induction along the matches of [replaceAll], for patterns whose
    matches use up at least one character. *)
Lemma replaceAll_ind matchAt (P : jsstr → jsstr → Prop) :
  shrinking matchAt →
  P [] [] →
  (∀ c rest, matchAt (c :: rest) = None →
             P rest (replaceAll matchAt rest) →
             P (c :: rest) (c :: replaceAll matchAt rest)) →
  (∀ s replacement after,
     matchAt s = Some (replacement, after) →
     P after (replaceAll matchAt after) →
     P s (replacement ++ replaceAll matchAt after)) →
  ∀ s, P s (replaceAll matchAt s).
Proof.
  intros Hshrink Hnil Hkeep Hmatch s.
  remember (length s) as n eqn:Hn. revert s Hn.
  induction n as [n IH] using lt_wf_ind. intros s ->.
  destruct s as [|c rest]; [by rewrite replaceAll_equation_1|].
  rewrite replaceAll_cons.
  destruct (matchAt (c :: rest)) as [[replacement after]|] eqn:Hat.
  - destruct (Hshrink _ _ _ Hat) as (_ & _ & Hlt).
    rewrite decide_True by done.
    apply Hmatch; [done|]. by eapply IH.
  - apply Hkeep; [done|]. eapply IH; [|done]. simpl. lia.
Qed.

Lemma skipWhile_suffix p s : skipWhile p s `suffix_of` s.
Proof.
  induction s as [|c s IH]; simpl; [done|].
  destruct (p c); [|done]. by apply suffix_cons_r.
Qed.

Lemma skipWhile_head p s c : head (skipWhile p s) = Some c → p c = false.
Proof.
  induction s as [|c' s IH]; simpl; [done|].
  destruct (p c') eqn:Hc'; [done|]. by intros [= <-].
Qed.

Lemma commentAt_shrinking : shrinking commentAt.
Proof.
  intros [|c rest] replacement after; simpl; [done|].
  destruct (decide _); [|done]. intros [= <- <-].
  pose proof (skipWhile_suffix (λ c, negb (isLineTerminator c)) rest) as Hs.
  pose proof (suffix_length _ _ Hs).
  split; [by apply suffix_cons_r|]. simpl. lia.
Qed.

Lemma escapedNewlineAt_shrinking : shrinking escapedNewlineAt.
Proof.
  intros [|c [|n rest]] replacement after; simpl; [done..|].
  destruct (decide _); [|done]. intros [= <- <-].
  split; [by do 2 apply suffix_cons_r|]. simpl. lia.
Qed.

Lemma whitespaceRunAt_shrinking : shrinking whitespaceRunAt.
Proof.
  intros [|c [|c' rest]] replacement after; simpl; [done..|].
  destruct (_ && _); [|done]. intros [= <- <-].
  pose proof (skipWhile_suffix isWhiteSpace rest) as Hs.
  pose proof (suffix_length _ _ Hs).
  split; [by do 2 apply suffix_cons_r|]. simpl. lia.
Qed.

Lemma punctuatorAt_shrinking : shrinking punctuatorAt.
Proof.
  intros s replacement after. unfold punctuatorAt.
  pose proof (skipWhile_suffix isWhiteSpace s) as Hs.
  destruct (skipWhile isWhiteSpace s) as [|p rest]; [done|].
  destruct (isPunctuator p); [|done]. intros [= <- <-].
  pose proof (skipWhile_suffix isWhiteSpace rest) as Hrest.
  assert (skipWhile isWhiteSpace rest `suffix_of` s) as Hafter.
  { etrans; [exact Hrest|]. etrans; [|exact Hs]. by apply suffix_cons_r. }
  split; [done|].
  apply suffix_length in Hs. apply suffix_length in Hrest. simpl in *. lia.
Qed.

Lemma replaceAll_length matchAt s :
  shrinking matchAt → length (replaceAll matchAt s) ≤ length s.
Proof.
  intros Hshrink.
  apply (replaceAll_ind matchAt (λ s out, length out ≤ length s)); [done..| |].
  - intros c rest _ IH. simpl. lia.
  - intros s' replacement after Hat IH.
    destruct (Hshrink _ _ _ Hat) as (_ & Hlen & _).
    rewrite length_app. lia.
Qed.

(** X27: minifying never makes the text longer. *)
Theorem minifyDocumentString_length documentString :
  length (minifyDocumentString documentString) ≤ length documentString.
Proof.
  unfold minifyDocumentString.
  etrans; [apply replaceAll_length, punctuatorAt_shrinking|].
  etrans; [apply replaceAll_length, whitespaceRunAt_shrinking|].
  etrans; [apply replaceAll_length, escapedNewlineAt_shrinking|].
  apply replaceAll_length, commentAt_shrinking.
Qed.

Lemma replaceAll_elem matchAt s x :
  shrinking matchAt →
  x ∈ replaceAll matchAt s →
  x ∈ s ∨ ∃ s' replacement after,
            matchAt s' = Some (replacement, after) ∧ x ∈ replacement.
Proof.
  intros Hshrink.
  apply (replaceAll_ind matchAt (λ s out, x ∈ out →
    x ∈ s ∨ ∃ s' replacement after,
              matchAt s' = Some (replacement, after) ∧ x ∈ replacement));
    [done| | |].
  - by left.
  - intros c rest _ IH [->|Hin]%elem_of_cons; [left; left|].
    destruct (IH Hin) as [?|?]; [left; by right|by right].
  - intros s' replacement after Hat IH [Hin|Hin]%elem_of_app.
    + right. eauto.
    + destruct (IH Hin) as [Hafter|?]; [left|by right].
      destruct (Hshrink _ _ _ Hat) as ([prefix ->] & _).
      apply elem_of_app. by right.
Qed.

Lemma removeComments_no_hash s : hash ∉ replaceAll commentAt s.
Proof.
  apply (replaceAll_ind commentAt (λ _ out, hash ∉ out));
    [apply commentAt_shrinking| | |].
  - by intros ?%elem_of_nil.
  - intros c rest Hnone IH [Heq|?]%elem_of_cons; [|done].
    simpl in Hnone. by rewrite decide_True in Hnone.
  - intros s' replacement after Hat IH.
    destruct s' as [|c rest]; [done|]. simpl in Hat.
    destruct (decide _); [|done]. by injection Hat as <- <-.
Qed.

(** X28: the minified text holds no hash: every comment is gone, and so is
    every other hash together with what follows it on its line. *)
Theorem minifyDocumentString_no_hash documentString :
  hash ∉ minifyDocumentString documentString.
Proof.
  unfold minifyDocumentString.
  pose proof (removeComments_no_hash documentString) as H1.
  assert (hash ∉ replaceAll escapedNewlineAt
                   (replaceAll commentAt documentString)) as H2.
  { intros [?|(s & r & a & Hat & Hin)]%replaceAll_elem;
      [done| |apply escapedNewlineAt_shrinking].
    destruct s as [|c [|n rest]]; [done..|]. simpl in Hat.
    destruct (decide _); [|done]. injection Hat as <- <-.
    by apply list_elem_of_singleton in Hin. }
  assert (hash ∉ replaceAll whitespaceRunAt
                   (replaceAll escapedNewlineAt
                      (replaceAll commentAt documentString))) as H3.
  { intros [?|(s & r & a & Hat & Hin)]%replaceAll_elem;
      [done| |apply whitespaceRunAt_shrinking].
    destruct s as [|c [|c' rest]]; [done..|]. simpl in Hat.
    destruct (_ && _); [|done]. injection Hat as <- <-.
    by apply list_elem_of_singleton in Hin. }
  intros [?|(s & r & a & Hat & Hin)]%replaceAll_elem;
    [done| |apply punctuatorAt_shrinking].
  unfold punctuatorAt in Hat.
  destruct (skipWhile isWhiteSpace s) as [|p rest]; [done|].
  destruct (isPunctuator p) eqn:Hp; [|done]. injection Hat as <- <-.
  apply list_elem_of_singleton in Hin. subst p. by vm_compute in Hp.
Qed.

Lemma skipWhile_all p post rest :
  Forall (λ c, p c = true) post →
  skipWhile p (post ++ rest) = skipWhile p rest.
Proof. induction 1 as [|c post Hc _ IH]; simpl; [done|]. by rewrite Hc. Qed.

Lemma skipWhile_stop p rest :
  (rest = [] ∨ ∃ c rest', rest = c :: rest' ∧ p c = false) →
  skipWhile p rest = rest.
Proof. intros [->|(c & rest' & -> & Hc)]; simpl; [done|]. by rewrite Hc. Qed.

Lemma skipWhile_split p pre :
  Forall (λ c, p c = true) pre
  ∨ ∃ pre', skipWhile p pre = pre' ∧ pre' ≠ [] ∧ length pre' ≤ length pre
            ∧ ∀ rest, skipWhile p (pre ++ rest) = pre' ++ rest.
Proof.
  induction pre as [|c pre IH]; [by left|]. simpl.
  destruct (p c) eqn:Hc.
  - destruct IH as [Hall|(pre' & Hskip & Hne & Hlen & Hrest)].
    + left. by constructor.
    + right. exists pre'. split; [done|]. split; [done|]. split; [lia|done].
  - right. exists (c :: pre). split; [done|]. split; [done|]. split; [done|].
    done.
Qed.

Lemma removeComments_to_line_end pre post rest :
  Forall (λ c, isLineTerminator c = false) post →
  (rest = [] ∨ ∃ c rest', rest = c :: rest' ∧ isLineTerminator c = true) →
  replaceAll commentAt (pre ++ hash :: post ++ rest)
  = replaceAll commentAt (pre ++ rest).
Proof.
  intros Hpost Hrest.
  assert (skipWhile (λ c, negb (isLineTerminator c)) rest = rest) as Hstop.
  { apply skipWhile_stop.
    destruct Hrest as [?|(c & rest' & -> & Hc)]; [by left|right].
    exists c, rest'. by rewrite Hc. }
  assert (skipWhile (λ c, negb (isLineTerminator c)) (post ++ rest) = rest)
    as Hskip.
  { rewrite skipWhile_all; [done|].
    eapply Forall_impl; [exact Hpost|]. simpl. by intros c ->. }
  assert (∀ text, replaceAll commentAt (hash :: text)
            = replaceAll commentAt
                (skipWhile (λ c, negb (isLineTerminator c)) text)) as Hhash.
  { intros text. rewrite replaceAll_cons. simpl commentAt. cbv beta iota.
    rewrite decide_True; [done|].
    by apply (commentAt_shrinking (hash :: text) []). }
  remember (length pre) as n eqn:Hn. revert pre Hn.
  induction n as [n IH] using lt_wf_ind. intros pre ->.
  destruct pre as [|c pre].
  - simpl. by rewrite Hhash, Hskip.
  - simpl. destruct (decide (c = hash)) as [->|Hc].
    + rewrite !Hhash.
      destruct (skipWhile_split (λ c, negb (isLineTerminator c)) pre)
        as [Hall|(pre' & _ & _ & Hlen & Hsplit)].
      * rewrite !skipWhile_all by done. simpl. by rewrite Hskip, Hstop.
      * rewrite !Hsplit. eapply IH; [|done]. simpl. lia.
    + rewrite !replaceAll_cons. simpl commentAt.
      rewrite !decide_False by done. f_equal. eapply IH; [|done].
      simpl. lia.
Qed.

(** X29: what stands between a hash and the end of its line has no effect on
    the minified text, whatever it is: in a text without line terminators
    everything from the first hash on is dropped. *)
Theorem minifyDocumentString_drops_line_rest pre post rest :
  Forall (λ c, isLineTerminator c = false) post →
  (rest = [] ∨ ∃ c rest', rest = c :: rest' ∧ isLineTerminator c = true) →
  minifyDocumentString (pre ++ hash :: post ++ rest)
  = minifyDocumentString (pre ++ rest).
Proof.
  intros Hpost Hrest. unfold minifyDocumentString.
  by rewrite removeComments_to_line_end.
Qed.

Lemma apart_nil p q : apart p q [].
Proof. by intros i a b ?. Qed.

Lemma apart_cons p q a text :
  apart p q (a :: text)
  ↔ (∀ b, head text = Some b →
       ¬ (p a = true ∧ q b = true) ∧ ¬ (q a = true ∧ p b = true))
    ∧ apart p q text.
Proof.
  split.
  - intros Hall. split.
    + intros b Hb. apply (Hall 0 a b); [done|]. by destruct text.
    + intros i x y Hx Hy. by apply (Hall (S i) x y).
  - intros [Hhead Hrest] [|i] x y; simpl.
    + intros [= <-] Hy. apply Hhead. by destruct text.
    + apply Hrest.
Qed.

Lemma apart_suffix p q text text' :
  text' `suffix_of` text → apart p q text → apart p q text'.
Proof.
  intros [prefix ->]. induction prefix as [|a prefix IH]; [done|].
  simpl. intros [_ ?]%apart_cons. by apply IH.
Qed.

Lemma isPunctuator_not_whitespace c :
  isPunctuator c = true → isWhiteSpace c = false.
Proof.
  unfold isPunctuator. intros Hp%bool_decide_eq_true.
  repeat (apply elem_of_cons in Hp as [->|Hp]; [done|]).
  by apply elem_of_nil in Hp.
Qed.

Lemma collapse_head c rest :
  isWhiteSpace c = false →
  head (replaceAll whitespaceRunAt (c :: rest)) = Some c.
Proof.
  intros Hc. rewrite replaceAll_cons.
  assert (whitespaceRunAt (c :: rest) = None) as ->; [|done].
  simpl. destruct rest; [done|]. by rewrite Hc.
Qed.

Lemma collapse_head_skipped text b :
  head (replaceAll whitespaceRunAt (skipWhile isWhiteSpace text)) = Some b →
  isWhiteSpace b = false.
Proof.
  destruct (skipWhile isWhiteSpace text) as [|c rest] eqn:Hskip.
  { by rewrite replaceAll_equation_1. }
  assert (isWhiteSpace c = false) as Hc.
  { apply (skipWhile_head isWhiteSpace text). by rewrite Hskip. }
  rewrite collapse_head by done. by intros [= <-].
Qed.

Lemma collapse_apart s :
  apart isWhiteSpace isWhiteSpace (replaceAll whitespaceRunAt s).
Proof.
  apply (replaceAll_ind whitespaceRunAt
           (λ _ out, apart isWhiteSpace isWhiteSpace out));
    [apply whitespaceRunAt_shrinking|apply apart_nil| |].
  - intros c rest Hnone IH. apply apart_cons. split; [|done].
    intros b Hb.
    assert (¬ (isWhiteSpace c = true ∧ isWhiteSpace b = true)); [|tauto].
    intros [Hc Hws]. destruct rest as [|c' rest].
    { by rewrite replaceAll_equation_1 in Hb. }
    simpl in Hnone. rewrite Hc in Hnone. simpl in Hnone.
    destruct (isWhiteSpace c') eqn:Hc'; [done|].
    rewrite collapse_head in Hb by done. injection Hb as <-. congruence.
  - intros s' replacement after Hat IH.
    destruct s' as [|c [|c' rest]]; [done..|]. simpl in Hat.
    destruct (_ && _); [|done]. injection Hat as <- <-.
    simpl. apply apart_cons. split; [|done].
    intros b Hb%collapse_head_skipped.
    split; intros [_ ?]; congruence.
Qed.

Lemma tighten_head s :
  head (replaceAll punctuatorAt s)
  = match punctuatorAt s with
    | Some (replacement, _) => head replacement
    | None => head s
    end.
Proof.
  destruct s as [|c rest]; [by rewrite replaceAll_equation_1|].
  rewrite replaceAll_cons.
  destruct (punctuatorAt (c :: rest)) as [[replacement after]|] eqn:Hat;
    [|done].
  destruct (punctuatorAt_shrinking _ _ _ Hat) as (_ & _ & Hlt).
  rewrite decide_True by done.
  unfold punctuatorAt in Hat.
  destruct (skipWhile isWhiteSpace (c :: rest)) as [|p rest']; [done|].
  destruct (isPunctuator p); [|done]. by injection Hat as <- <-.
Qed.

Lemma punctuatorAt_Some s replacement after :
  punctuatorAt s = Some (replacement, after) →
  ∃ p rest, skipWhile isWhiteSpace s = p :: rest
            ∧ isPunctuator p = true
            ∧ replacement = [p] ∧ after = skipWhile isWhiteSpace rest.
Proof.
  unfold punctuatorAt.
  destruct (skipWhile isWhiteSpace s) as [|p rest]; [done|].
  destruct (isPunctuator p) eqn:Hp; [|done]. intros [= <- <-].
  by exists p, rest.
Qed.

(** The first character of a tightened text that starts behind skipped
    white space is no white space. *)
Lemma tighten_head_skipped text b :
  head (replaceAll punctuatorAt (skipWhile isWhiteSpace text)) = Some b →
  isWhiteSpace b = false.
Proof.
  rewrite tighten_head.
  destruct (punctuatorAt (skipWhile isWhiteSpace text))
    as [[replacement after]|] eqn:Hat.
  - apply punctuatorAt_Some in Hat as (p & rest & _ & Hp & -> & _).
    intros [= <-]. by apply isPunctuator_not_whitespace.
  - apply skipWhile_head.
Qed.

Lemma tighten_apart s :
  apart isWhiteSpace isPunctuator (replaceAll punctuatorAt s)
  ∧ (apart isWhiteSpace isWhiteSpace s →
     apart isWhiteSpace isWhiteSpace (replaceAll punctuatorAt s)).
Proof.
  apply (replaceAll_ind punctuatorAt
           (λ s out, apart isWhiteSpace isPunctuator out
                     ∧ (apart isWhiteSpace isWhiteSpace s →
                        apart isWhiteSpace isWhiteSpace out)));
    [apply punctuatorAt_shrinking|split; intros; apply apart_nil| |].
  - intros c rest Hnone [IH1 IH2].
    assert (∀ b, head (replaceAll punctuatorAt rest) = Some b →
              (∃ p, isPunctuator b = true ∧ b = p
                    ∧ ∃ after, punctuatorAt rest = Some ([p], after))
              ∨ (punctuatorAt rest = None ∧ head rest = Some b)) as Hhead.
    { intros b. rewrite tighten_head.
      destruct (punctuatorAt rest) as [[replacement after]|] eqn:Hat;
        [|by right].
      destruct (punctuatorAt_Some _ _ _ Hat) as (p & r & _ & Hp & -> & _).
      intros [= <-]. left. eauto. }
    assert (isWhiteSpace c = true → punctuatorAt rest = None) as Hws.
    { intros Hc. unfold punctuatorAt in *. simpl in Hnone.
      by rewrite Hc in Hnone. }
    assert (isWhiteSpace c = false → isPunctuator c = false) as Hother.
    { intros Hc. unfold punctuatorAt in Hnone. simpl in Hnone.
      rewrite Hc in Hnone. by destruct (isPunctuator c). }
    split.
    + apply apart_cons. split; [|done]. intros b Hb.
      destruct (isWhiteSpace c) eqn:Hc.
      * specialize (Hws eq_refl).
        destruct (Hhead b Hb) as [(p & _ & _ & after & Hat)|[_ Hrest]];
          [congruence|].
        destruct rest as [|b' rest']; [done|]. injection Hrest as ->.
        assert (isPunctuator b = false) as Hb'.
        { unfold punctuatorAt in Hws. simpl in Hws.
          destruct (isWhiteSpace b) eqn:Hwb.
          - destruct (isPunctuator b) eqn:Hpb; [|done].
            apply isPunctuator_not_whitespace in Hpb. congruence.
          - by destruct (isPunctuator b). }
        split; intros [? ?]; [congruence|].
        destruct (isPunctuator c) eqn:Hpc; [|done].
        apply isPunctuator_not_whitespace in Hpc. congruence.
      * specialize (Hother eq_refl). split; intros [? ?]; congruence.
    + intros [Hc Hrest]%apart_cons. apply apart_cons. split; [|by apply IH2].
      intros b Hb.
      assert (¬ (isWhiteSpace c = true ∧ isWhiteSpace b = true)); [|tauto].
      intros [Hwc Hwb].
      destruct (Hhead b Hb) as [(p & Hp & _)|[_ Hb']].
      * apply isPunctuator_not_whitespace in Hp. congruence.
      * destruct (Hc b Hb') as [Hno _]. by apply Hno.
  - intros s' replacement after Hat [IH1 IH2].
    destruct (punctuatorAt_shrinking _ _ _ Hat) as (Hsuffix & _).
    apply punctuatorAt_Some in Hat as (p & rest & _ & Hp & -> & ->).
    pose proof (isPunctuator_not_whitespace p Hp) as Hws.
    split.
    + simpl. apply apart_cons. split; [|done].
      intros b Hb%tighten_head_skipped. split; intros [? ?]; congruence.
    + intros Hs. simpl. apply apart_cons. split.
      * intros b _. split; intros [? ?]; congruence.
      * apply IH2. by eapply apart_suffix.
Qed.

(** X30: in the minified text no white space character stands next to another
    white space character or next to a brace, a parenthesis, a full stop,
    a colon or a comma. *)
Theorem minifyDocumentString_tight documentString :
  apart isWhiteSpace isWhiteSpace (minifyDocumentString documentString)
  ∧ apart isWhiteSpace isPunctuator (minifyDocumentString documentString).
Proof.
  unfold minifyDocumentString.
  destruct (tighten_apart
              (replaceAll whitespaceRunAt
                 (replaceAll escapedNewlineAt
                    (replaceAll commentAt documentString)))) as [Hp Hw].
  split; [|done]. apply Hw, collapse_apart.
Qed.

Example minify_query :
  minifyDocumentString
    ([dquote] ++ js "query {" ++ [backslash; letterN] ++ js "  a ( x : 1 ) ,"
     ++ [backslash; letterN] ++ js "  ... on T { b }" ++ [backslash; letterN]
     ++ js "}" ++ [dquote])
  = [dquote] ++ js "query{a(x:1),...on T{b}}" ++ [dquote]
  ∧ minifyDocumentString
      ([dquote] ++ js "{ a(color: " ++ [backslash; dquote] ++ js "#fff"
       ++ [backslash; dquote] ++ js ") }" ++ [dquote])
    = [dquote] ++ js "{a(color:" ++ [backslash; dquote].
Proof. by vm_compute. Qed.

(** ** Instances of the further properties *)

Lemma scanImports_line_by_line_witness :
  scanImports (Fixtures.singleQuoted ++ [CR] ++ js "query { f }")
  = (request ← importOfLine Fixtures.singleQuoted;
     requests ← scanImports (js "query { f }");
     Ok (match request with
         | Some filePath => filePath :: requests
         | None => requests
         end)).
Proof.
  apply (scanImports_line_by_line Fixtures.singleQuoted [CR] (js "query { f }")).
  - apply (bool_decide_unpack (CR ∉ Fixtures.singleQuoted)). by vm_compute.
  - apply (bool_decide_unpack (LF ∉ Fixtures.singleQuoted)). by vm_compute.
  - right. by left.
  - intros _. by vm_compute.
Defined.

Lemma importOfLine_quoted_path_witness :
  importOfLine (js "#import " ++ squote :: js "./frag.graphql" ++ [dquote])
  = Ok (Some (js "./frag.graphql"))
  ∧ importOfLine (js "#import " ++ squote :: js "./frag.graphql"
                  ++ dquote :: space :: js "# shared fields")
    = Ok (Some (js "./frag.graphql")).
Proof.
  apply (importOfLine_quoted_path squote dquote (js "./frag.graphql")
           (js "# shared fields")).
  - reflexivity.
  - reflexivity.
  - by vm_compute.
  - apply (bool_decide_unpack (space ∉ js "./frag.graphql")). by vm_compute.
  - apply (bool_decide_unpack
             (Forall (λ c, isLineTerminator c = false) (js "./frag.graphql"))).
    by vm_compute.
Defined.

Lemma loadSource_without_imports_witness :
  loadSource Fixtures.parse Fixtures.resolveIn Fixtures.read Fixtures.dir
    Fixtures.idle (js "/src") Fixtures.bSource
  = Ok (Fixtures.document [Fixtures.fragB]).
Proof.
  apply (loadSource_without_imports Fixtures.parse Fixtures.resolveIn
           Fixtures.read Fixtures.dir Fixtures.idle (js "/src")
           Fixtures.bSource (Fixtures.document [Fixtures.fragB])).
  - by vm_compute.
  - assert (splitLines Fixtures.bSource = [Fixtures.bSource]) as ->
      by (by vm_compute).
    constructor; [|constructor]. intros [Hhash _]. by vm_compute in Hhash.
Defined.

Lemma unresolved_import_is_fatal_witness :
  loadSource Cases.parse Cases.resolveIn Cases.read Fixtures.dir
    Fixtures.secondFirst (js "/src") Cases.missingSource
  = Throw ImportResolutionError.
Proof.
  apply (unresolved_import_is_fatal Cases.parse Cases.resolveIn Cases.read
           Fixtures.dir Fixtures.secondFirst (js "/src") Cases.missingSource
           Cases.plainQuery [js "./missing.graphql"] (js "./missing.graphql")).
  - by vm_compute.
  - by vm_compute.
  - apply list_elem_of_here.
  - by vm_compute.
Defined.

Lemma unreadable_import_is_fatal_witness :
  loadSource Cases.parse Cases.resolveIn Cases.read Fixtures.dir
    Fixtures.secondFirst (js "/src") Cases.goneSource
  = Throw ReadError.
Proof.
  apply (unreadable_import_is_fatal Cases.parse Cases.resolveIn Cases.read
           Fixtures.dir Fixtures.secondFirst (js "/src") Cases.goneSource
           Cases.plainQuery [js "./gone.graphql"] [js "/src/gone.graphql"]
           (js "/src/gone.graphql")).
  - by vm_compute.
  - by vm_compute.
  - by vm_compute.
  - apply list_elem_of_here.
  - by vm_compute.
Defined.

Lemma loadSource_no_import_cycle_witness :
  ¬ tc (importedBy Fixtures.resolveIn Fixtures.read Fixtures.dir)
       (js "/src", Fixtures.rootSource) (js "/src", Fixtures.rootSource).
Proof.
  apply (loadSource_no_import_cycle Fixtures.parse Fixtures.resolveIn
           Fixtures.read Fixtures.dir Fixtures.secondFirst (js "/src")
           Fixtures.rootSource Fixtures.expanded).
  by vm_compute.
Defined.

Lemma nested_rejection_is_fatal_witness :
  ∃ error' j,
    loadSource Cases.parse Cases.resolveIn Cases.read Fixtures.dir
      (Settle [1; 0] [0; 1] [1; 0] [Fixtures.idle; Fixtures.idle])
      (js "/src") Cases.brokenImporter
    = Throw error'
    ∧ loadEach (loadSource Cases.parse Cases.resolveIn Cases.read Fixtures.dir)
        [Fixtures.idle; Fixtures.idle]
        [(js "/src", Fixtures.bSource); (js "/src", Cases.brokenSource)] !! j
      = Some (Throw error').
Proof.
  apply (nested_rejection_is_fatal Cases.parse Cases.resolveIn Cases.read
           Fixtures.dir [1; 0] [0; 1] [1; 0] [Fixtures.idle; Fixtures.idle]
           (js "/src") Cases.brokenImporter
           (Fixtures.document [Fixtures.query [Fixtures.spread "b"]])
           [js "./b.graphql"; js "./broken.graphql"]
           [js "/src/b.graphql"; js "/src/broken.graphql"]
           [(js "/src", Fixtures.bSource); (js "/src", Cases.brokenSource)]
           1 SyntaxError).
  - by vm_compute.
  - by vm_compute.
  - by vm_compute.
  - by vm_compute.
  - by vm_compute.
Defined.

Lemma loader_validate_needs_schema_witness :
  loader Fixtures.parse Fixtures.resolveIn Fixtures.read Fixtures.dir
    unit string Fixtures.schemaOf Fixtures.validate Fixtures.print
    Fixtures.stringify Fixtures.minify
    Cases.noSchema Fixtures.idle Cases.brokenSource
  = Finished string [] (doneError SchemaLoadError).
Proof.
  apply (loader_validate_needs_schema Fixtures.parse Fixtures.resolveIn
           Fixtures.read Fixtures.dir unit string Fixtures.schemaOf
           Fixtures.validate Fixtures.print Fixtures.stringify Fixtures.minify
           Cases.noSchema Fixtures.idle Cases.brokenSource).
  - reflexivity.
  - reflexivity.
  - by left.
Defined.

Lemma loader_any_order_witness :
  loader Fixtures.parse Fixtures.resolveIn Fixtures.read Fixtures.dir
    unit string Fixtures.schemaOf Fixtures.validate Fixtures.print
    Fixtures.stringify Fixtures.minify
    Fixtures.this Fixtures.idle Fixtures.rootSource
  = Finished string ["Cannot query field f"; "Unknown type T"]%string
      (doneOutput
         (js "export default " ++ [dquote] ++ js "query { ...a ...b }"
          ++ [dquote]))
  ∨ loader Fixtures.parse Fixtures.resolveIn Fixtures.read Fixtures.dir
      unit string Fixtures.schemaOf Fixtures.validate Fixtures.print
      Fixtures.stringify Fixtures.minify
      Fixtures.this Fixtures.idle Fixtures.rootSource
    = Unsettled string.
Proof.
  apply (loader_any_order Fixtures.parse Fixtures.resolveIn Fixtures.read
           Fixtures.dir unit string Fixtures.schemaOf Fixtures.validate
           Fixtures.print Fixtures.stringify Fixtures.minify
           Fixtures.this Fixtures.inOrder Fixtures.idle Fixtures.rootSource).
  by vm_compute.
Defined.

Lemma loader_without_validate_witness :
  loader Fixtures.parse Fixtures.resolveIn Fixtures.read Fixtures.dir
    unit string Fixtures.schemaOf Fixtures.validate Fixtures.print
    Fixtures.stringify minifyDocumentString
    Cases.notValidating Fixtures.inOrder Fixtures.rootSource
  = loader Fixtures.parse Fixtures.resolveIn Fixtures.read Fixtures.dir
      unit string Cases.failingSchema Cases.silent Fixtures.print
      Fixtures.stringify minifyDocumentString
      Cases.notValidating Fixtures.inOrder Fixtures.rootSource
  ∧ ∀ emitted done,
      loader Fixtures.parse Fixtures.resolveIn Fixtures.read Fixtures.dir
        unit string Fixtures.schemaOf Fixtures.validate Fixtures.print
        Fixtures.stringify minifyDocumentString
        Cases.notValidating Fixtures.inOrder Fixtures.rootSource
      = Finished string emitted done →
      emitted = [].
Proof.
  apply (loader_without_validate Fixtures.parse Fixtures.resolveIn
           Fixtures.read Fixtures.dir unit string Fixtures.print
           Fixtures.stringify minifyDocumentString
           Cases.notValidating Fixtures.inOrder Fixtures.rootSource
           Fixtures.schemaOf Cases.failingSchema
           Fixtures.validate Cases.silent).
  reflexivity.
Defined.

Lemma findFileInTree_nearest_witness :
  Schema.findFileInTree Cases.statOf Cases.joined Cases.parentOf
    5 (js "/src/app") (js "schema.json")
  = match filter (λ fileName, Schema.isFileAt Cases.statOf fileName = true)
            (Schema.candidates Cases.joined Cases.parentOf 2
               (js "/src/app") (js "schema.json")) with
    | fileName :: _ => Ok fileName
    | [] => Throw SchemaLoadError
    end.
Proof.
  apply (findFileInTree_nearest Cases.statOf Cases.joined Cases.parentOf
           5 2 (js "/src/app") (js "schema.json")).
  - by vm_compute.
  - lia.
Defined.


Lemma loadSchema_found_witness :
  Schema.dependencies _
    (Schema.loadSchema jsstr Cases.statOf Cases.readSchema Cases.joined
       Cases.parentOf Cases.build 5 Cases.inApp Fixtures.validating ∅)
  = [js "/src/schema.json"]
  ∧ ∀ schema,
      Schema.result _
        (Schema.loadSchema jsstr Cases.statOf Cases.readSchema Cases.joined
           Cases.parentOf Cases.build 5 Cases.inApp Fixtures.validating ∅)
      = Ok schema →
      ∃ entry stats,
        Schema.cache _
          (Schema.loadSchema jsstr Cases.statOf Cases.readSchema Cases.joined
             Cases.parentOf Cases.build 5 Cases.inApp Fixtures.validating ∅)
          !! js "/src/schema.json" = Some entry
        ∧ Schema.c_schema entry = schema
        ∧ Cases.statOf (js "/src/schema.json") = Some stats
        ∧ (Schema.mtime stats ≤ Schema.c_mtime entry)%Z.
Proof.
  apply (loadSchema_found jsstr Cases.statOf Cases.readSchema Cases.joined
           Cases.parentOf Cases.build 5 Cases.inApp Fixtures.validating ∅
           115%N (js "chema.json") (js "/src/schema.json")).
  - by vm_compute.
  - by vm_compute.
Defined.

Lemma minifyDocumentString_drops_line_rest_witness :
  minifyDocumentString (js "{ a(color: " ++ hash :: js "fff) }" ++ [])
  = minifyDocumentString (js "{ a(color: " ++ []).
Proof.
  apply (minifyDocumentString_drops_line_rest (js "{ a(color: ")
           (js "fff) }") []).
  - apply (bool_decide_unpack
             (Forall (λ c, isLineTerminator c = false) (js "fff) }"))).
    by vm_compute.
  - by left.
Defined.
